(** * A two-level bucketed container of items, and its identifier parser

    Shallow embedding of [DataStructure.cpp], [DataStructure.h], [Item.h] and
    the record housekeeping of [Coursework2.cpp].

    Conventions of the embedding.
    - A [char] is an [ascii]; where the code compares or subtracts characters
      they are promoted to [int], which [char_to_int] writes out for a signed
      8-bit [char] (the tests against ['A'] and ['Z'] come out the same for an
      unsigned one).
    - An [int] has 32 bits; a value converted to [int] keeps its low 32 bits,
      and an addition of two [int]s whose sum no [int] holds is [Undefined].
    - A [char*] is an [option string]: [None] is [nullptr] and [Some s] points
      to a NUL-terminated array whose characters before the terminator are [s].
    - [std::map<char, Bucket>] is a finite map; its iteration from [begin()] to
      [end()] visits the keys present in ascending order of [char].
    - [std::array<std::forward_list<Item>, 26>] is a list of chains read and
      written by index; a chain is the list of its items, front first.
    - A call whose behaviour the language leaves undefined (a null pointer
      handed to [strcmp], an array subscript past the end) is [Undefined].
    - A member function that mutates the container and may throw returns a
      [completion] carrying the container as the call left it. *)

From Stdlib Require Import ZArith String Ascii.
From stdpp Require Import base option list list_numbers sorting gmap strings.

Local Open Scope Z_scope.

(** ** Characters and C strings *)

Definition char_to_int (c : ascii) : Z :=
  let n := Z.of_N (N_of_ascii c) in
  if n <? 128 then n else n - 256.

Definition to_unsigned_char (c : ascii) : Z := Z.of_N (N_of_ascii c).

Definition NUL : ascii := Ascii.zero.

(** [std::strchr]: a pointer to the first occurrence of [c], which is the
    suffix of the string that starts there; the terminator is part of the
    string for this search. *)
Fixpoint strchr (s : string) (c : ascii) : option string :=
  match s with
  | EmptyString => if Ascii.eqb c NUL then Some EmptyString else None
  | String a rest => if Ascii.eqb a c then Some s else strchr rest c
  end.

(** [p[1]] for a pointer [p] to a character that is not the terminator:
    [None] stands for the terminator ['\0']. *)
Definition char_after (p : string) : option ascii :=
  match p with
  | String _ (String c _) => Some c
  | _ => None
  end.

(** [std::strcmp] on the contents of two strings: the sign of the difference
    of the first pair of differing characters, read as [unsigned char]. *)
Fixpoint strcmp_contents (lhs rhs : string) : Z :=
  match lhs, rhs with
  | EmptyString, EmptyString => 0
  | EmptyString, String _ _ => -1
  | String _ _, EmptyString => 1
  | String a lhs', String b rhs' =>
      if Ascii.eqb a b then strcmp_contents lhs' rhs'
      else if to_unsigned_char a <? to_unsigned_char b then -1 else 1
  end.

(** ** Undefined behaviour *)

Inductive behaviour (A : Type) : Type :=
  | Yields (a : A)
  | Undefined.
Global Arguments Yields {A} a.
Global Arguments Undefined {A}.

Global Instance behaviour_ret : MRet behaviour := @Yields.
Global Instance behaviour_bind : MBind behaviour := λ A B f ma,
  match ma with
  | Yields a => f a
  | Undefined => Undefined
  end.

(** [std::strcmp] on pointers: a null argument is undefined. *)
Definition strcmp (lhs rhs : option string) : behaviour Z :=
  match lhs, rhs with
  | Some l, Some r => Yields (strcmp_contents l r)
  | _, _ => Undefined
  end.

(** [std::find_if]: the element the returned iterator designates, [None] for
    the end iterator. *)
Fixpoint find_if {A : Type} (pred : A → behaviour bool) (l : list A)
    : behaviour (option A) :=
  match l with
  | [] => Yields None
  | x :: rest =>
      b ← pred x;
      if b : bool then Yields (Some x) else find_if pred rest
  end.

(** [std::array::operator[]]: defined for an index below the size. *)
Definition array_at {A : Type} (a : list A) (i : nat) : behaviour A :=
  match a !! i with
  | Some x => Yields x
  | None => Undefined
  end.

(** ** Items (Item.h, Coursework2.cpp) *)

(** [ITEM1]'s fields as [Item.h] documents them; [pNext] is [nullptr] in every
    item the class builds and is left out. *)
Record Item : Type := mkItem {
  pID : option string;
  Code : N;
  pTime : option string
}.

Global Instance Item_eq_dec : EqDecision Item.
Proof. solve_decision. Defined.

Definition GetID (it : Item) : option string := pID it.

Definition duplicateString (source : option string) : option string :=
  match source with
  | None => None
  | Some s => Some s
  end.

(** The copy constructor [Item::Item(const Item&)]. *)
Definition Item_copy (sourceItem : Item) : Item :=
  {| pID := duplicateString (pID sourceItem);
     Code := Code sourceItem;
     pTime := duplicateString (pTime sourceItem) |}.

(** [Item::operator==]. *)
Definition Item_equal (this other : Item) : bool :=
  match pID this, pID other with
  | Some l, Some r => strcmp_contents l r =? 0
  | None, None => true
  | _, _ => false
  end.

(** [operator<<(std::ostream&, const Item&)]; the stream is the text written
    to it so far. *)
Definition Item_output (outputStream : string) (itemToOutput : Item) : string :=
  match pID itemToOutput with
  | Some s => outputStream +:+ s
  | None => outputStream +:+ "(null)"
  end.

(** A call that returns a value or throws a [std::runtime_error]. *)
Inductive attempt (A : Type) : Type :=
  | Returns (a : A)
  | Raises (what : string).
Global Arguments Returns {A} a.
Global Arguments Raises {A} what.

(** [fetchItemFromProvider].  The provider is a library outside the
    repository: [provided] is the pointer its [GetItem(1, itemIdentifier)]
    gave back to this call, [None] for a null one, read as the [ITEM1] it
    points to. *)
Definition fetchItemFromProvider (provided : option Item) : attempt Item :=
  match provided with
  | None => Raises "Failed to retrieve item from provider"
  | Some fetchedItem =>
      match pID fetchedItem with
      | None => Raises "Failed to retrieve item from provider"
      | Some _ => Returns fetchedItem
      end
  end.

(** The two constructors of [Item], with and without an identifier: they
    differ only in the identifier they hand to the provider. *)
Definition Item_construct (provided : option Item) : attempt Item :=
  match fetchItemFromProvider provided with
  | Raises what => Raises what
  | Returns fetchedItem =>
      Returns {| pID := duplicateString (pID fetchedItem);
                 Code := Code fetchedItem;
                 pTime := duplicateString (pTime fetchedItem) |}
  end.

(** [Item::operator=]: [same_object] says whether [this == &otherItem]. *)
Definition Item_assign (this otherItem : Item) (same_object : bool) : Item :=
  if same_object then this
  else {| pID := duplicateString (pID otherItem);
          Code := Code otherItem;
          pTime := duplicateString (pTime otherItem) |}.

(** ** The identifier parser (DataStructure.cpp, anonymous namespace) *)

Definition FIRST_VALID_LETTER : ascii := "A".
Definition LAST_VALID_LETTER : ascii := "Z".
Definition WORD_SEPARATOR : ascii := " ".

Record ParsedItemIdentifier : Type := mkParsed {
  firstWordInitial : ascii;
  secondWordIndex : nat
}.

Global Instance ParsedItemIdentifier_eq_dec : EqDecision ParsedItemIdentifier.
Proof. solve_decision. Defined.

(** The letter test both words go through:
    [c < FIRST_VALID_LETTER || c > LAST_VALID_LETTER]. *)
Definition outside_valid_letters (c : ascii) : bool :=
  (char_to_int c <? char_to_int FIRST_VALID_LETTER)
  || (char_to_int LAST_VALID_LETTER <? char_to_int c).

(** [static_cast<std::size_t>] of an [int], for a 64-bit [size_t]. *)
Definition to_size_t (z : Z) : nat := Z.to_nat (z mod 2 ^ 64).

(** [tryParseItemIdentifier]: [Some parsedResult] when it returns [true],
    [None] when it returns [false] (and leaves [parsedResult] alone). *)
Definition tryParseItemIdentifier (itemIdentifier : option string)
    : option ParsedItemIdentifier :=
  match itemIdentifier with
  | None => None
  | Some EmptyString => None
  | Some (String firstInitial _ as identifier) =>
      if outside_valid_letters firstInitial then None
      else
        match strchr identifier WORD_SEPARATOR with
        | None => None
        | Some spacePosition =>
            match char_after spacePosition with
            | None => None
            | Some secondWordInitial =>
                if outside_valid_letters secondWordInitial then None
                else Some {|
                  firstWordInitial := firstInitial;
                  secondWordIndex :=
                    to_size_t (char_to_int secondWordInitial
                               - char_to_int FIRST_VALID_LETTER) |}
            end
        end
  end.

(** ** The container (DataStructure.h, DataStructure.cpp) *)

(** [using Bucket = std::array<std::forward_list<Item>, 26>]. *)
Abbreviation Bucket := (list (list Item)) (only parsing).

(** A value-initialised [Bucket]: 26 empty chains. *)
Definition Bucket_default : Bucket := replicate 26 [].

Record DataStructure : Type := mkDataStructure {
  mBuckets : gmap ascii Bucket
}.

(** [DataStructure() = default]. *)
Definition DataStructure_new : DataStructure := {| mBuckets := ∅ |}.

(** Every [char] in ascending order, from -128 to 127. *)
Definition char_of_int (z : Z) : ascii := ascii_of_N (Z.to_N (z mod 256)).
Definition chars_ascending : list ascii := char_of_int <$> seqZ (-128) 256.

(** The entries a range-for over a [std::map<char, V>] visits, in order. *)
Definition map_entries {V : Type} (m : gmap ascii V) : list (ascii * V) :=
  omap (λ key, pair key <$> m !! key) chars_ascending.

(** [std::map::operator[]] as far as the map is concerned: a missing key is
    inserted with a value-initialised bucket. *)
Definition map_subscript (m : gmap ascii Bucket) (key : ascii)
    : gmap ascii Bucket :=
  match m !! key with
  | Some _ => m
  | None => <[key := Bucket_default]> m
  end.

(** Conversion to a 32-bit [int]: the low 32 bits, two's complement. *)
Definition to_int (z : Z) : Z := (z + 2 ^ 31) mod 2 ^ 32 - 2 ^ 31.
Definition INT_MIN : Z := - 2 ^ 31.
Definition INT_MAX : Z := 2 ^ 31 - 1.

(** [a + b] on two [int]s: a sum that no [int] holds is undefined. *)
Definition int_add (a b : Z) : behaviour Z :=
  if decide (INT_MIN ≤ a + b ≤ INT_MAX) then Yields (a + b) else Undefined.

(** One round of the inner loop of [GetItemsNumber]:
    [totalCount += static_cast<int>(std::distance(begin, end))]. *)
Definition count_chain (totalCount : behaviour Z) (itemList : list Item)
    : behaviour Z :=
  count ← totalCount;
  int_add count (to_int (Z.of_nat (length itemList))).

(** [DataStructure::GetItemsNumber]. *)
Definition GetItemsNumber (ds : DataStructure) : behaviour Z :=
  foldl (λ totalCount bucketEntry,
           foldl count_chain totalCount (bucketEntry.2 : Bucket))
        (Yields 0) (map_entries (mBuckets ds)).

(** The predicate both searches hand to [std::find_if]. *)
Definition same_identifier (itemIdentifier : option string) (candidateItem : Item)
    : behaviour bool :=
  c ← strcmp (GetID candidateItem) itemIdentifier;
  Yields (c =? 0).

(** [DataStructure::GetItem]: the item the returned pointer designates, [None]
    for [nullptr]. The member is [const]: it has no container to give back. *)
Definition GetItem (ds : DataStructure) (itemIdentifier : option string)
    : behaviour (option Item) :=
  match tryParseItemIdentifier itemIdentifier with
  | None => Yields None
  | Some parsedIdentifier =>
      match mBuckets ds !! firstWordInitial parsedIdentifier with
      | None => Yields None
      | Some bucket =>
          itemList ← array_at bucket (secondWordIndex parsedIdentifier);
          find_if (same_identifier itemIdentifier) itemList
      end
  end.

Inductive completion : Type :=
  | Normal (ds : DataStructure)
  | Throws (what : string) (ds : DataStructure).

Definition state_of (c : completion) : DataStructure :=
  match c with
  | Normal ds => ds
  | Throws _ ds => ds
  end.

(** [DataStructure::operator+=]. *)
Definition operator_add (ds : DataStructure) (itemToAdd : Item)
    : behaviour completion :=
  match tryParseItemIdentifier (GetID itemToAdd) with
  | None => Yields (Throws "Invalid ID" ds)
  | Some parsedIdentifier =>
      let key := firstWordInitial parsedIdentifier in
      let buckets := map_subscript (mBuckets ds) key in
      bucket ← from_option Yields Undefined (buckets !! key);
      itemList ← array_at bucket (secondWordIndex parsedIdentifier);
      duplicateItem ← find_if (same_identifier (GetID itemToAdd)) itemList;
      match duplicateItem with
      | Some _ => Yields (Throws "Item already exists" {| mBuckets := buckets |})
      | None =>
          Yields (Normal {| mBuckets :=
            <[key := <[secondWordIndex parsedIdentifier :=
                         Item_copy itemToAdd :: itemList]> bucket]> buckets |})
      end
  end.

(** The loop of [operator-=] over one chain: [Some] of the chain after
    [erase_after] when an item matched, [None] when the loop ran off the end. *)
Fixpoint erase_matching (itemIdentifier : option string) (itemList : list Item)
    : behaviour (option (list Item)) :=
  match itemList with
  | [] => Yields None
  | currentItem :: rest =>
      c ← strcmp (GetID currentItem) itemIdentifier;
      if c =? 0 then Yields (Some rest)
      else
        erased ← erase_matching itemIdentifier rest;
        Yields (cons currentItem <$> (erased : option (list Item)))
  end.

(** [DataStructure::operator-=].  When the erased item was the last of its
    chain the code works out whether the whole bucket is empty
    ([isBucketCompletelyEmpty], [None] when it is not computed) and then does
    nothing with the answer. *)
Definition operator_sub (ds : DataStructure) (itemIdentifier : option string)
    : behaviour completion :=
  match tryParseItemIdentifier itemIdentifier with
  | None => Yields (Throws "Invalid ID" ds)
  | Some parsedIdentifier =>
      let key := firstWordInitial parsedIdentifier in
      match mBuckets ds !! key with
      | None => Yields (Throws "Item not found" ds)
      | Some bucket =>
          itemList ← array_at bucket (secondWordIndex parsedIdentifier);
          erased ← erase_matching itemIdentifier itemList;
          match erased with
          | Some itemList' =>
              let bucket' :=
                <[secondWordIndex parsedIdentifier := itemList']> bucket in
              let isBucketCompletelyEmpty : option bool :=
                match itemList' with
                | [] => Some (forallb (λ candidateList : list Item,
                                         bool_decide (candidateList = []))
                                      bucket')
                | _ :: _ => None
                end in
              Yields (Normal {| mBuckets := <[key := bucket']> (mBuckets ds) |})
          | None => Yields (Throws "Item not found" ds)
          end
      end
  end.

(** The items in the order the two nested range-for loops of [operator<<]
    and [GetItemsNumber] reach them. *)
Definition enumerate (ds : DataStructure) : list Item :=
  bucketEntry ← map_entries (mBuckets ds);
  itemList ← (bucketEntry.2 : Bucket);
  itemList.

Definition endl : string := String "010" EmptyString.

(** [operator<<(std::ostream&, const DataStructure&)]. *)
Definition DataStructure_output (outputStream : string) (ds : DataStructure)
    : string :=
  foldl (λ out bucketEntry,
           foldl (λ out (itemList : list Item),
                    foldl (λ out currentItem, Item_output out currentItem +:+ endl)
                          out itemList)
                 out (bucketEntry.2 : Bucket))
        outputStream (map_entries (mBuckets ds)).

(** ** Sequences of calls *)

Inductive Call : Type :=
  | Add (itemToAdd : Item)
  | Remove (itemIdentifier : option string).

Definition call (ds : DataStructure) (c : Call) : behaviour completion :=
  match c with
  | Add itemToAdd => operator_add ds itemToAdd
  | Remove itemIdentifier => operator_sub ds itemIdentifier
  end.

(** The container together with the number of additions and of removals that
    returned normally so far. *)
Record Tally : Type := mkTally {
  container : DataStructure;
  added : nat;
  removed : nat
}.

Definition tally_call (t : Tally) (c : Call) : behaviour Tally :=
  r ← call (container t) c;
  Yields match r, c with
       | Normal ds, Add _ => mkTally ds (S (added t)) (removed t)
       | Normal ds, Remove _ => mkTally ds (added t) (S (removed t))
       | Throws _ ds, _ => mkTally ds (added t) (removed t)
       end.

(** A caller that catches every exception and carries on. *)
Fixpoint run (calls : list Call) (t : Tally) : behaviour Tally :=
  match calls with
  | [] => Yields t
  | c :: rest => t' ← tally_call t c; run rest t'
  end.

Definition start : Tally := mkTally DataStructure_new 0 0.

(** The containers a program can hold: the new one, and what any call leaves
    behind, whether it returned or threw. *)
Inductive reachable : DataStructure → Prop :=
  | reachable_new : reachable DataStructure_new
  | reachable_call ds c r :
      reachable ds → call ds c = Yields r → reachable (state_of r).

(** * Vocabulary of the properties *)

(** ** Identifiers, as the spec describes them *)

(** The letters the spec calls uppercase, by character code. *)
Definition uppercase_letter (c : ascii) : Prop :=
  (N_of_ascii "A" ≤ N_of_ascii c ≤ N_of_ascii "Z")%N.

Global Instance uppercase_letter_dec c : Decision (uppercase_letter c).
Proof. unfold uppercase_letter. apply _. Defined.

(** The uppercase letters in alphabetical order. *)
Definition letters : list ascii :=
  list_ascii_of_string "ABCDEFGHIJKLMNOPQRSTUVWXYZ".

(** [n] is the position of the first [c] in [s]. *)
Definition first_occurrence (c : ascii) (s : string) (n : nat) : Prop :=
  String.get n s = Some c ∧ ∀ m, (m < n)%nat → String.get m s ≠ Some c.

(** What a successful parse looked at, and what it returned. *)
Definition parses_to (p : option string) (r : ParsedItemIdentifier) : Prop :=
  ∃ s c n d,
    p = Some s ∧ String.get 0 s = Some c ∧ uppercase_letter c
    ∧ first_occurrence " " s n ∧ String.get (S n) s = Some d
    ∧ uppercase_letter d
    ∧ r = {| firstWordInitial := c;
             secondWordIndex := N.to_nat (N_of_ascii d - N_of_ascii "A") |}.

(** The spec's list of malformed identifiers (4.1), in its own words: the
    string is absent or empty; its first character is not an uppercase
    letter; it has no space; its first space is its last character; the
    character after its first space is not an uppercase letter. *)
Definition invalid_identifier (p : option string) : Prop :=
  match p with
  | None => True
  | Some s =>
      s = EmptyString
      ∨ (∃ c, String.get 0 s = Some c ∧ ¬ uppercase_letter c)
      ∨ (∀ n, String.get n s ≠ Some " "%char)
      ∨ (∃ n, first_occurrence " " s n ∧ String.get (S n) s = None)
      ∨ (∃ n d, first_occurrence " " s n ∧ String.get (S n) s = Some d
                ∧ ¬ uppercase_letter d)
  end.

(** ** Chains by address *)

(** The chain an address selects; an address with no bucket has none to
    show, which reads as the empty chain. *)
Definition chain_at (ds : DataStructure) (key : ascii) (index : nat) : list Item :=
  default [] (mBuckets ds !! key ≫= λ bucket : Bucket, bucket !! index).

(** The container with one chain replaced, the bucket made first if absent. *)
Definition with_chain (ds : DataStructure) (key : ascii) (index : nat)
    (itemList : list Item) : DataStructure :=
  {| mBuckets :=
       <[key := <[index := itemList]>
                  (default Bucket_default (mBuckets ds !! key))]> (mBuckets ds) |}.

(** Every item sits in the chain its own identifier parses to. *)
Definition placed (ds : DataStructure) : Prop :=
  ∀ key (bucket : Bucket) index itemList it,
    mBuckets ds !! key = Some bucket → bucket !! index = Some itemList →
    it ∈ itemList →
    tryParseItemIdentifier (GetID it)
    = Some {| firstWordInitial := key; secondWordIndex := index |}.

(** The invariant the calls keep: buckets exist for letters only and have
    their 26 chains, every item is in the chain of its own address, and no
    chain holds an identifier twice. *)
Record well_formed (ds : DataStructure) : Prop := mk_well_formed {
  wf_bucket : ∀ key (bucket : Bucket),
    mBuckets ds !! key = Some bucket →
    uppercase_letter key ∧ length bucket = 26%nat;
  wf_placed : ∀ key index it,
    it ∈ chain_at ds key index →
    tryParseItemIdentifier (GetID it)
    = Some {| firstWordInitial := key; secondWordIndex := index |};
  wf_unique : ∀ key index, NoDup (GetID <$> chain_at ds key index)
}.

(** Addresses in ascending order: by first-level key, then by second-level
    key. *)
Definition address_le (a b : Item) : Prop :=
  ∃ ra rb,
    tryParseItemIdentifier (GetID a) = Some ra
    ∧ tryParseItemIdentifier (GetID b) = Some rb
    ∧ ((N_of_ascii (firstWordInitial ra) < N_of_ascii (firstWordInitial rb))%N
       ∨ (firstWordInitial ra = firstWordInitial rb
          ∧ (secondWordIndex ra ≤ secondWordIndex rb)%nat)).

(** ** Printed text *)

(** The line [operator<<] writes for one item. *)
Definition Item_line (it : Item) : string := Item_output EmptyString it +:+ endl.

Definition lines (l : list Item) : string :=
  foldr (λ it rest, Item_line it +:+ rest) EmptyString l.

(** ** Sample items and containers *)

Definition item_named (id : string) : Item :=
  {| pID := Some id; Code := 0; pTime := None |}.

Definition cafe_noir : Item := item_named "Cafe Noir".
Definition beta_zed : Item := item_named "Beta Zed".
Definition alpha_young : Item := item_named "Alpha Young".
Definition alpha_apple : Item := item_named "Alpha Apple".
Definition alpha_yellow : Item := item_named "Alpha Yellow".
Definition alpha_yak : Item := item_named "Alpha Yak".

(** Items with pairwise different identifiers, "A A1", "A A01", "A A11",
    "A A001", ...: the second word is an A followed by the binary digits of
    the number plus one, lowest first.  All have the address [("A", 0)]. *)
Fixpoint binary_digits (p : positive) : string :=
  match p with
  | xH => String "1" EmptyString
  | xO p' => String "0" (binary_digits p')
  | xI p' => String "1" (binary_digits p')
  end.

Definition numbered_item (i : nat) : Item :=
  item_named
    (String "A" (String " " (String "A" (binary_digits (Pos.of_succ_nat i))))).

(** The container after the calls, every exception caught. *)
Definition after (calls : list Call) : DataStructure :=
  match run calls start with
  | Yields t => container t
  | Undefined => DataStructure_new
  end.

Definition one_item : DataStructure := after [Add cafe_noir].

(** Three items in the chain of [("A", 24)] and one in that of [("B", 25)];
    and the same with the middle one of the three removed. *)
Definition four_items : DataStructure :=
  after [Add alpha_young; Add beta_zed; Add alpha_yellow; Add alpha_yak].

Definition yellow_removed : DataStructure :=
  after [Add alpha_young; Add beta_zed; Add alpha_yellow; Add alpha_yak;
         Remove (Some "Alpha Yellow"%string)].

(** A container no sequence of calls produces: the chain of [("C", 13)] holds
    an item whose identifier is the null pointer. *)
Definition null_identifier_stored : DataStructure :=
  {| mBuckets :=
       {[ "C"%char := <[13%nat := [{| pID := None; Code := 0; pTime := None |}]]>
                        Bucket_default ]} |}.

(** ** Items the class produces *)

(** The items a program gets from the class itself: from a constructor, from
    the copy constructor, or as the left-hand side of an assignment. *)
Inductive constructible : Item → Prop :=
  | constructible_new provided it :
      Item_construct provided = Returns it → constructible it
  | constructible_copy sourceItem :
      constructible sourceItem → constructible (Item_copy sourceItem)
  | constructible_assign this otherItem same_object :
      constructible this → constructible otherItem →
      (same_object = true → this = otherItem) →
      constructible (Item_assign this otherItem same_object).

(** Each identifier in turn, followed by [endl]. *)
Definition identifier_lines (ids : list string) : string :=
  foldr (λ id rest, id +:+ endl +:+ rest) EmptyString ids.

(** ** A map from identifiers to items *)

(** The container seen as a plain map from identifier to item: an addition
    enters the item unless its identifier is null, is one the parser
    rejects, or is taken; a removal deletes the identifier's entry. *)
Definition model_call (m : gmap string Item) (c : Call) : gmap string Item :=
  match c with
  | Add itemToAdd =>
      match GetID itemToAdd with
      | Some s =>
          match tryParseItemIdentifier (Some s), m !! s with
          | Some _, None => <[s := itemToAdd]> m
          | _, _ => m
          end
      | None => m
      end
  | Remove (Some s) => delete s m
  | Remove None => m
  end.

(** * Properties *)

(** ** Characters and strings *)

Lemma strcmp_contents_eq (lhs rhs : string) :
  strcmp_contents lhs rhs = 0 ↔ lhs = rhs.
Proof.
  revert rhs. induction lhs as [|a lhs IH]; intros [|b rhs]; simpl; try done.
  destruct (Ascii.eqb_spec a b) as [->|Hne].
  - rewrite IH. split; congruence.
  - split; [|congruence]. by destruct (_ <? _).
Qed.

Lemma strcmp_contents_refl (s : string) : strcmp_contents s s = 0.
Proof. by apply strcmp_contents_eq. Qed.

Lemma outside_valid_letters_false (c : ascii) :
  outside_valid_letters c = false ↔ uppercase_letter c.
Proof.
  unfold outside_valid_letters, uppercase_letter, char_to_int.
  change (N_of_ascii FIRST_VALID_LETTER) with 65%N.
  change (N_of_ascii LAST_VALID_LETTER) with 90%N.
  change (N_of_ascii "A") with 65%N. change (N_of_ascii "Z") with 90%N.
  pose proof (N_ascii_bounded c) as Hb. simpl.
  rewrite orb_false_iff, !Z.ltb_ge.
  destruct (Z.ltb_spec (Z.of_N (N_of_ascii c)) 128); lia.
Qed.

Lemma outside_valid_letters_true (c : ascii) :
  outside_valid_letters c = true ↔ ¬ uppercase_letter c.
Proof.
  rewrite <-outside_valid_letters_false. by destruct (outside_valid_letters c).
Qed.

Lemma letter_index (c : ascii) :
  uppercase_letter c →
  to_size_t (char_to_int c - char_to_int FIRST_VALID_LETTER)
  = N.to_nat (N_of_ascii c - N_of_ascii "A").
Proof.
  unfold uppercase_letter, to_size_t, char_to_int.
  change (N_of_ascii FIRST_VALID_LETTER) with 65%N.
  change (N_of_ascii "A") with 65%N. change (N_of_ascii "Z") with 90%N.
  intros Hc. simpl.
  destruct (Z.ltb_spec (Z.of_N (N_of_ascii c)) 128); [|lia].
  rewrite Z.mod_small by lia. lia.
Qed.

Lemma first_occurrence_unique c s n1 n2 :
  first_occurrence c s n1 → first_occurrence c s n2 → n1 = n2.
Proof.
  intros [H1 L1] [H2 L2].
  destruct (Nat.lt_trichotomy n1 n2) as [Hlt|[->|Hlt]]; [|done|].
  - by destruct (L2 _ Hlt).
  - by destruct (L1 _ Hlt).
Qed.

Lemma strchr_None (c : ascii) (s : string) :
  strchr s c = None → ∀ n, String.get n s ≠ Some c.
Proof.
  induction s as [|a s IH]; simpl; intros Hs n.
  - done.
  - destruct (Ascii.eqb_spec a c) as [->|Hne]; [done|].
    destruct n as [|n]; [congruence|]. by apply IH.
Qed.

Lemma strchr_Some (c : ascii) (s p : string) :
  c ≠ NUL → strchr s c = Some p →
  ∃ n, first_occurrence c s n ∧ char_after p = String.get (S n) s.
Proof.
  intros Hc. induction s as [|a s IH]; simpl; intros Hs.
  - destruct (Ascii.eqb_spec c NUL); done.
  - destruct (Ascii.eqb_spec a c) as [->|Hne].
    + injection Hs as <-. exists 0%nat. split; [split; [done|lia]|].
      by destruct s.
    + destruct (IH Hs) as (n & [Hn Hlt] & Hp). exists (S n).
      split; [split; [done|]|done].
      intros [|m] Hm; simpl; [congruence|]. apply Hlt. lia.
Qed.

(** ** The parser *)

Lemma tryParseItemIdentifier_Some (p : option string) (r : ParsedItemIdentifier) :
  tryParseItemIdentifier p = Some r ↔ parses_to p r.
Proof.
  split.
  - destruct p as [[|c s]|]; try done. unfold tryParseItemIdentifier.
    destruct (outside_valid_letters c) eqn:Hc; [done|].
    destruct (strchr _ _) as [sp|] eqn:Hsp; [|done].
    destruct (char_after sp) as [d|] eqn:Hd; [|done].
    destruct (outside_valid_letters d) eqn:Hd'; [done|].
    intros [= <-].
    apply outside_valid_letters_false in Hc, Hd'.
    apply strchr_Some in Hsp as (n & Hn & Hafter); [|done].
    exists (String c s), c, n, d. rewrite <-Hafter, letter_index by done.
    done.
  - intros (s & c & n & d & -> & Hc & Hup & Hn & Hd & Hup' & ->).
    destruct s as [|c' s]; [done|]. injection Hc as ->.
    unfold tryParseItemIdentifier.
    apply outside_valid_letters_false in Hup as ->.
    destruct (strchr _ _) as [sp|] eqn:Hsp.
    + apply strchr_Some in Hsp as (n' & Hn' & Hafter); [|done].
      rewrite (first_occurrence_unique _ _ _ _ Hn' Hn), Hd in Hafter.
      rewrite Hafter.
      rewrite (proj2 (outside_valid_letters_false d) Hup').
      by rewrite letter_index.
    + destruct Hn as [Hn _]. by destruct (strchr_None _ _ Hsp n).
Qed.

Lemma tryParseItemIdentifier_index_bound p r :
  tryParseItemIdentifier p = Some r → (secondWordIndex r < 26)%nat.
Proof.
  intros (s & c & n & d & _ & _ & _ & _ & _ & Hd & ->)%tryParseItemIdentifier_Some.
  unfold uppercase_letter in Hd. simpl in *. lia.
Qed.

Lemma tryParseItemIdentifier_Some_pointer p r :
  tryParseItemIdentifier p = Some r → ∃ s, p = Some s ∧ s ≠ EmptyString.
Proof.
  destruct p as [[|c s]|]; try done. intros _. by exists (String c s).
Qed.

Lemma tryParseItemIdentifier_None (p : option string) :
  tryParseItemIdentifier p = None ↔ invalid_identifier p.
Proof.
  split.
  - destruct p as [[|c s]|]; [by left| |done].
    unfold tryParseItemIdentifier, invalid_identifier.
    destruct (outside_valid_letters c) eqn:Hc.
    { intros _. right; left. exists c.
      by apply outside_valid_letters_true in Hc. }
    destruct (strchr _ _) as [sp|] eqn:Hsp.
    2:{ intros _. right; right; left. by apply strchr_None. }
    apply strchr_Some in Hsp as (n & Hn & Hafter); [|done].
    destruct (char_after sp) as [d|] eqn:Hd.
    2:{ intros _. do 3 right. left. by exists n. }
    destruct (outside_valid_letters d) eqn:Hd'; [|done].
    intros _. do 4 right. exists n, d.
    by apply outside_valid_letters_true in Hd'.
  - intros Hinv. destruct (tryParseItemIdentifier p) as [r|] eqn:Hp; [|done].
    exfalso.
    apply tryParseItemIdentifier_Some in Hp
      as (s & c & n & d & -> & Hc & Hup & Hn & Hd & Hup' & _).
    destruct Hinv as [->|[(c' & Hc' & Hno)|[Hno|[(n' & Hn' & Hd')|(n' & d' & Hn' & Hd' & Hno)]]]].
    + done.
    + rewrite Hc in Hc'. by injection Hc' as <-.
    + destruct Hn as [Hn _]. by destruct (Hno n).
    + rewrite (first_occurrence_unique _ _ _ _ Hn' Hn) in Hd'. congruence.
    + rewrite (first_occurrence_unique _ _ _ _ Hn' Hn), Hd in Hd'.
      by injection Hd' as <-.
Qed.

(** C1. The parser returns [false] exactly on the identifiers the spec lists
    as malformed: the null pointer, the empty string, a first character
    outside A-Z, no space, a first space with nothing after it, or a first
    space followed by a character outside A-Z.  On every other identifier it
    returns [true] with the first character as the first-level key and the
    character after the first space, minus ['A'], as the second-level key,
    which lies between 0 and 25.  The boundary cases of the spec follow. *)
Theorem parser_contract :
  (∀ p, tryParseItemIdentifier p = None ↔ invalid_identifier p)
  ∧ (∀ p, ¬ invalid_identifier p →
       ∃ s c n d r,
         p = Some s ∧ String.get 0 s = Some c
         ∧ first_occurrence " " s n ∧ String.get (S n) s = Some d
         ∧ tryParseItemIdentifier p = Some r
         ∧ firstWordInitial r = c
         ∧ Z.of_nat (secondWordIndex r)
           = Z.of_N (N_of_ascii d) - Z.of_N (N_of_ascii "A")
         ∧ 0 ≤ Z.of_nat (secondWordIndex r) ≤ 25)
  ∧ tryParseItemIdentifier (Some "Cafe Noir"%string)
    = Some {| firstWordInitial := "C"; secondWordIndex := 13 |}
  ∧ tryParseItemIdentifier (Some "cafe Noir"%string) = None
  ∧ tryParseItemIdentifier (Some "Cafe noir"%string) = None
  ∧ tryParseItemIdentifier (Some "Cafe"%string) = None
  ∧ tryParseItemIdentifier (Some "Cafe "%string) = None
  ∧ tryParseItemIdentifier None = None.
Proof.
  split_and!; try reflexivity.
  - apply tryParseItemIdentifier_None.
  - intros p Hvalid. rewrite <-tryParseItemIdentifier_None in Hvalid.
    destruct (tryParseItemIdentifier p) as [r|] eqn:Hp; [|done].
    apply tryParseItemIdentifier_Some in Hp
      as (s & c & n & d & -> & Hc & Hup & Hn & Hd & Hup' & ->).
    exists s, c, n, d. eexists. unfold uppercase_letter in Hup'.
    change (N_of_ascii "A") with 65%N in *.
    change (N_of_ascii "Z") with 90%N in *.
    split_and!; try done; cbn [secondWordIndex]; lia.
Qed.

(** ** Scanning a chain *)

Lemma same_identifier_Yields (id : string) (it : Item) :
  is_Some (GetID it) →
  same_identifier (Some id) it = Yields (bool_decide (GetID it = Some id)).
Proof.
  intros [t Ht]. unfold same_identifier, strcmp. rewrite Ht. simpl. f_equal.
  destruct (Z.eqb_spec (strcmp_contents t id) 0) as [He|He];
    rewrite strcmp_contents_eq in He.
  - by rewrite bool_decide_eq_true_2 by congruence.
  - by rewrite bool_decide_eq_false_2 by congruence.
Qed.

Lemma find_if_same_identifier (id : string) (l : list Item) :
  Forall (λ it, is_Some (GetID it)) l →
  find_if (same_identifier (Some id)) l
  = Yields (snd <$> list_find (λ it, GetID it = Some id) l).
Proof.
  induction 1 as [|it l Hit _ IH]; [done|].
  cbn [find_if list_find]. rewrite same_identifier_Yields by done. simpl.
  case_bool_decide as Hd.
  - by rewrite decide_True.
  - rewrite decide_False by done. rewrite IH.
    by destruct (list_find _ l) as [[]|].
Qed.

Lemma erase_matching_Yields (id : string) (l : list Item) :
  Forall (λ it, is_Some (GetID it)) l →
  erase_matching (Some id) l
  = Yields (match list_find (λ it, GetID it = Some id) l with
            | Some (n, _) => Some (delete n l)
            | None => None
            end).
Proof.
  induction 1 as [|it l Hit _ IH]; [done|].
  cbn [erase_matching list_find]. destruct Hit as [t Ht].
  unfold strcmp. rewrite Ht. simpl.
  destruct (Z.eqb_spec (strcmp_contents t id) 0) as [He|He];
    rewrite strcmp_contents_eq in He.
  - rewrite decide_True by congruence. done.
  - rewrite decide_False by congruence. rewrite IH. simpl.
    by destruct (list_find _ l) as [[]|].
Qed.

(** Where [list_find] stops: the first item with the identifier. *)
Lemma list_find_identifier_Some (id : option string) (l : list Item) n it :
  list_find (λ it, GetID it = id) l = Some (n, it) →
  ∃ l1 l2, l = l1 ++ it :: l2 ∧ length l1 = n ∧ GetID it = id
           ∧ delete n l = l1 ++ l2
           ∧ Forall (λ x, GetID x ≠ id) l1.
Proof.
  intros (Hn & Hid & Hbefore)%list_find_Some.
  exists (take n l), (drop (S n) l).
  pose proof (lookup_lt_Some _ _ _ Hn) as Hlen.
  split_and!; try done.
  - by rewrite take_drop_middle.
  - rewrite length_take. lia.
  - by rewrite delete_take_drop.
  - apply Forall_forall. intros x [j Hj]%list_elem_of_lookup.
    pose proof (lookup_lt_Some _ _ _ Hj) as Hj'. rewrite length_take in Hj'.
    rewrite lookup_take_lt in Hj by lia. apply (Hbefore j); [done|lia].
Qed.

Lemma list_find_identifier_None (id : option string) (l : list Item) :
  list_find (λ it, GetID it = id) l = None ↔ id ∉ (GetID <$> l).
Proof.
  rewrite list_find_None, Forall_forall, list_elem_of_fmap. split.
  - intros Hno (it & -> & Hit). by apply (Hno it).
  - intros Hno it Hit Hid. apply Hno. by exists it.
Qed.

(** ** Chains and the invariant of the container *)

Lemma chain_at_new key index : chain_at DataStructure_new key index = [].
Proof. unfold chain_at. simpl. by rewrite lookup_empty. Qed.

Lemma well_formed_new : well_formed DataStructure_new.
Proof.
  split.
  - intros key bucket. simpl. by rewrite lookup_empty.
  - intros key index it. rewrite chain_at_new. by intros ?%elem_of_nil.
  - intros key index. rewrite chain_at_new. constructor.
Qed.

Lemma Item_copy_id (it : Item) : Item_copy it = it.
Proof. by destruct it as [[] ? []]. Qed.

Lemma chain_at_bucket ds key (bucket : Bucket) index :
  mBuckets ds !! key = Some bucket → (index < length bucket)%nat →
  bucket !! index = Some (chain_at ds key index).
Proof.
  intros Hb Hi. unfold chain_at. rewrite Hb. simpl.
  destruct (lookup_lt_is_Some_2 bucket index Hi) as [l ->]. done.
Qed.

Lemma chain_at_no_bucket ds key index :
  mBuckets ds !! key = None → chain_at ds key index = [].
Proof. intros Hb. unfold chain_at. by rewrite Hb. Qed.

Lemma chain_at_out_of_range ds key index :
  well_formed ds → (26 ≤ index)%nat → chain_at ds key index = [].
Proof.
  intros Hwf Hi. unfold chain_at.
  destruct (mBuckets ds !! key) as [bucket|] eqn:Hb; [|done]. simpl.
  destruct (wf_bucket _ Hwf _ _ Hb) as [_ Hlen].
  rewrite lookup_ge_None_2 by lia. done.
Qed.

Lemma with_chain_bucket_length ds key index l :
  well_formed ds →
  length (<[index := l]> (default Bucket_default (mBuckets ds !! key))) = 26%nat.
Proof.
  intros Hwf. rewrite length_insert.
  destruct (mBuckets ds !! key) as [bucket|] eqn:Hb; [|done].
  by destruct (wf_bucket _ Hwf _ _ Hb).
Qed.

Lemma chain_at_with_chain_eq ds key index l :
  well_formed ds → (index < 26)%nat →
  chain_at (with_chain ds key index l) key index = l.
Proof.
  intros Hwf Hi. unfold chain_at, with_chain. simpl.
  rewrite lookup_insert_eq. simpl. rewrite list_lookup_insert_eq; [done|].
  destruct (mBuckets ds !! key) as [bucket|] eqn:Hb; simpl; [|done].
  destruct (wf_bucket _ Hwf _ _ Hb). lia.
Qed.

Lemma chain_at_with_chain_ne ds key index l key' index' :
  (key', index') ≠ (key, index) →
  chain_at (with_chain ds key index l) key' index' = chain_at ds key' index'.
Proof.
  intros Hne. unfold chain_at, with_chain. simpl.
  destruct (decide (key' = key)) as [->|Hk].
  - rewrite lookup_insert_eq. simpl.
    rewrite list_lookup_insert_ne by congruence.
    destruct (mBuckets ds !! key) as [bucket|] eqn:Hb; simpl; [done|].
    unfold Bucket_default.
    destruct (replicate 26 [] !! index') as [x|] eqn:Hx; [|done].
    by apply lookup_replicate in Hx as [-> _].
  - by rewrite lookup_insert_ne.
Qed.

Lemma with_chain_keys ds key index l key' :
  is_Some (mBuckets ds !! key') → is_Some (mBuckets (with_chain ds key index l) !! key').
Proof.
  intros Hk. unfold with_chain. simpl.
  destruct (decide (key' = key)) as [->|Hne].
  - rewrite lookup_insert_eq. done.
  - by rewrite lookup_insert_ne.
Qed.

(** Replacing a chain keeps the invariant when the new chain is placed at its
    own address and has no identifier twice. *)
Lemma well_formed_with_chain ds key index l :
  well_formed ds → uppercase_letter key → (index < 26)%nat →
  (∀ it, it ∈ l →
     tryParseItemIdentifier (GetID it)
     = Some {| firstWordInitial := key; secondWordIndex := index |}) →
  NoDup (GetID <$> l) →
  well_formed (with_chain ds key index l).
Proof.
  intros Hwf Hkey Hi Hplaced Hnodup. split.
  - intros key' bucket. unfold with_chain. simpl.
    destruct (decide (key' = key)) as [->|Hne].
    + rewrite lookup_insert_eq. intros [= <-].
      split; [done|]. by apply with_chain_bucket_length.
    + rewrite lookup_insert_ne by done. apply Hwf.
  - intros key' index' it.
    destruct (decide ((key', index') = (key, index))) as [[= -> ->]|Hne].
    + rewrite chain_at_with_chain_eq by done. apply Hplaced.
    + rewrite chain_at_with_chain_ne by done. apply Hwf.
  - intros key' index'.
    destruct (decide ((key', index') = (key, index))) as [[= -> ->]|Hne].
    + by rewrite chain_at_with_chain_eq.
    + rewrite chain_at_with_chain_ne by done. apply Hwf.
Qed.

Lemma chain_identifiers_present ds key index :
  well_formed ds →
  Forall (λ it, is_Some (GetID it)) (chain_at ds key index).
Proof.
  intros Hwf. apply Forall_forall. intros it Hit.
  apply (wf_placed _ Hwf) in Hit.
  apply tryParseItemIdentifier_Some_pointer in Hit as (s & -> & _). done.
Qed.

(** ** What the three operations do to a well-formed container *)

Lemma GetItem_eq ds id :
  well_formed ds →
  GetItem ds id
  = Yields match tryParseItemIdentifier id with
           | None => None
           | Some r =>
               snd <$> list_find (λ it, GetID it = id)
                         (chain_at ds (firstWordInitial r) (secondWordIndex r))
           end.
Proof.
  intros Hwf. unfold GetItem.
  destruct (tryParseItemIdentifier id) as [r|] eqn:Hr; [|done].
  pose proof (tryParseItemIdentifier_index_bound _ _ Hr) as Hi.
  destruct (tryParseItemIdentifier_Some_pointer _ _ Hr) as (s & -> & _).
  destruct (mBuckets ds !! firstWordInitial r) as [bucket|] eqn:Hb.
  - destruct (wf_bucket _ Hwf _ _ Hb) as [_ Hlen]. unfold array_at.
    rewrite (chain_at_bucket _ _ _ _ Hb) by lia. simpl.
    apply find_if_same_identifier. by apply chain_identifiers_present.
  - by rewrite chain_at_no_bucket.
Qed.

Lemma operator_add_eq ds itemToAdd :
  well_formed ds →
  operator_add ds itemToAdd
  = Yields match tryParseItemIdentifier (GetID itemToAdd) with
           | None => Throws "Invalid ID" ds
           | Some r =>
               let itemList :=
                 chain_at ds (firstWordInitial r) (secondWordIndex r) in
               if decide (GetID itemToAdd ∈ GetID <$> itemList)
               then Throws "Item already exists" ds
               else Normal (with_chain ds (firstWordInitial r)
                              (secondWordIndex r) (itemToAdd :: itemList))
           end.
Proof.
  intros Hwf. unfold operator_add.
  destruct (tryParseItemIdentifier _) as [r|] eqn:Hr; [|done].
  pose proof (tryParseItemIdentifier_index_bound _ _ Hr) as Hi.
  destruct (tryParseItemIdentifier_Some_pointer _ _ Hr) as (s & Hs & _).
  cbv zeta. unfold map_subscript, with_chain.
  destruct (mBuckets ds !! firstWordInitial r) as [bucket|] eqn:Hb.
  - destruct (wf_bucket _ Hwf _ _ Hb) as [_ Hlen]. rewrite Hb. simpl.
    unfold array_at. rewrite (chain_at_bucket _ _ _ _ Hb) by lia. simpl.
    rewrite Hs, find_if_same_identifier by by apply chain_identifiers_present.
    simpl. rewrite Item_copy_id.
    destruct (list_find _ _) as [[n it]|] eqn:Hfind; simpl.
    + rewrite decide_True; [by destruct ds|].
      apply dec_stable. rewrite <-list_find_identifier_None. congruence.
    + rewrite decide_False; [done|]. by apply list_find_identifier_None.
  - rewrite lookup_insert_eq. simpl. rewrite chain_at_no_bucket by done.
    unfold array_at.
    replace (Bucket_default !! secondWordIndex r) with (Some (@nil Item))
      by (symmetry; apply lookup_replicate_2; lia).
    simpl. by rewrite Item_copy_id, insert_insert_eq.
Qed.

Lemma operator_sub_eq ds id :
  well_formed ds →
  operator_sub ds id
  = Yields match tryParseItemIdentifier id with
           | None => Throws "Invalid ID" ds
           | Some r =>
               let itemList :=
                 chain_at ds (firstWordInitial r) (secondWordIndex r) in
               match list_find (λ it, GetID it = id) itemList with
               | Some (n, _) =>
                   Normal (with_chain ds (firstWordInitial r)
                             (secondWordIndex r) (delete n itemList))
               | None => Throws "Item not found" ds
               end
           end.
Proof.
  intros Hwf. unfold operator_sub.
  destruct (tryParseItemIdentifier _) as [r|] eqn:Hr; [|done].
  pose proof (tryParseItemIdentifier_index_bound _ _ Hr) as Hi.
  destruct (tryParseItemIdentifier_Some_pointer _ _ Hr) as (s & -> & _).
  cbv zeta. unfold with_chain.
  destruct (mBuckets ds !! firstWordInitial r) as [bucket|] eqn:Hb.
  - destruct (wf_bucket _ Hwf _ _ Hb) as [_ Hlen]. simpl.
    unfold array_at. rewrite (chain_at_bucket _ _ _ _ Hb) by lia. simpl.
    rewrite erase_matching_Yields by by apply chain_identifiers_present.
    simpl. by destruct (list_find _ _) as [[n it]|].
  - by rewrite chain_at_no_bucket.
Qed.

(** ** Every call keeps the invariant and has defined behaviour *)

Lemma tryParseItemIdentifier_key_letter p r :
  tryParseItemIdentifier p = Some r → uppercase_letter (firstWordInitial r).
Proof.
  by intros (s & c & n & d & _ & _ & Hc & _ & _ & _ & ->)%tryParseItemIdentifier_Some.
Qed.

Lemma operator_add_well_formed ds itemToAdd r :
  well_formed ds → operator_add ds itemToAdd = Yields r →
  well_formed (state_of r).
Proof.
  intros Hwf. rewrite operator_add_eq by done. intros [= <-].
  destruct (tryParseItemIdentifier _) as [[key index]|] eqn:Hr; [|done].
  cbv zeta. cbn [firstWordInitial secondWordIndex].
  case_decide as Hdup; [done|]. simpl.
  apply well_formed_with_chain; try done.
  - apply (tryParseItemIdentifier_key_letter _ _ Hr).
  - apply (tryParseItemIdentifier_index_bound _ _ Hr).
  - intros it [->|Hit]%elem_of_cons; [done|]. by apply (wf_placed _ Hwf).
  - rewrite fmap_cons. apply NoDup_cons. split; [done|]. apply Hwf.
Qed.

Lemma operator_sub_well_formed ds id r :
  well_formed ds → operator_sub ds id = Yields r →
  well_formed (state_of r).
Proof.
  intros Hwf. rewrite operator_sub_eq by done. intros [= <-].
  destruct (tryParseItemIdentifier _) as [[key index]|] eqn:Hr; [|done].
  cbv zeta. cbn [firstWordInitial secondWordIndex].
  destruct (list_find _ _) as [[n it]|] eqn:Hfind; [|done]. simpl.
  apply well_formed_with_chain; try done.
  - apply (tryParseItemIdentifier_key_letter _ _ Hr).
  - apply (tryParseItemIdentifier_index_bound _ _ Hr).
  - intros x Hx%list_elem_of_delete_inv. by apply (wf_placed _ Hwf).
  - rewrite list_fmap_delete.
    eapply sublist_NoDup; [apply (wf_unique _ Hwf key index)|].
    apply sublist_delete.
Qed.

Lemma call_well_formed ds c r :
  well_formed ds → call ds c = Yields r → well_formed (state_of r).
Proof.
  destruct c; simpl;
    eauto using operator_add_well_formed, operator_sub_well_formed.
Qed.

Lemma call_defined ds c : well_formed ds → ∃ r, call ds c = Yields r.
Proof.
  intros Hwf. destruct c; simpl.
  - rewrite operator_add_eq by done. eauto.
  - rewrite operator_sub_eq by done. eauto.
Qed.

Lemma reachable_well_formed ds : reachable ds → well_formed ds.
Proof.
  induction 1; eauto using well_formed_new, call_well_formed.
Qed.

(** ** The order of iteration *)

Lemma char_of_int_to_int (c : ascii) : char_of_int (char_to_int c) = c.
Proof. by destruct c as [[] [] [] [] [] [] [] []]. Qed.

Lemma chars_ascending_codes : char_to_int <$> chars_ascending = seqZ (-128) 256.
Proof. by vm_compute. Qed.

Lemma NoDup_chars_ascending : NoDup chars_ascending.
Proof.
  apply (NoDup_fmap_1 char_to_int). rewrite chars_ascending_codes.
  apply NoDup_seqZ.
Qed.

Lemma elem_of_chars_ascending (c : ascii) : c ∈ chars_ascending.
Proof.
  rewrite <-(char_of_int_to_int c). apply list_elem_of_fmap_2, elem_of_seqZ.
  unfold char_to_int. pose proof (N_ascii_bounded c). simpl.
  destruct (Z.ltb_spec (Z.of_N (N_of_ascii c)) 128); lia.
Qed.

(** The traversal visits every entry of the map, each once. *)
Lemma elem_of_map_entries {V} (m : gmap ascii V) key (v : V) :
  (key, v) ∈ map_entries m ↔ m !! key = Some v.
Proof.
  unfold map_entries. rewrite list_elem_of_omap. split.
  - intros (key' & _ & Hv). destruct (m !! key') eqn:Hm; [|done].
    by injection Hv as -> ->.
  - intros Hm. exists key. split; [apply elem_of_chars_ascending|].
    by rewrite Hm.
Qed.

Lemma NoDup_map_entries {V} (m : gmap ascii V) : NoDup (map_entries m).*1.
Proof.
  unfold map_entries.
  induction NoDup_chars_ascending as [|key keys Hkey _ IH]; [constructor|].
  simpl. destruct (m !! key) as [v|] eqn:Hm; simpl; [|done].
  constructor; [|done].
  intros ((key' & v') & Heq & (key'' & Hin & Hv)%list_elem_of_omap)%list_elem_of_fmap.
  destruct (m !! key'') eqn:Hm''; [|done]. simpl in *.
  injection Hv as <- <-. by subst.
Qed.

Lemma chars_ascending_letters :
  ∃ before after,
    chars_ascending = before ++ letters ++ after
    ∧ Forall (λ c, ¬ uppercase_letter c) before
    ∧ Forall (λ c, ¬ uppercase_letter c) after.
Proof.
  exists (take 193 chars_ascending), (drop 219 chars_ascending).
  split_and!.
  - by vm_compute.
  - apply (bool_decide_unpack _). by vm_compute.
  - apply (bool_decide_unpack _). by vm_compute.
Qed.

Lemma elem_of_letters (c : ascii) : c ∈ letters ↔ uppercase_letter c.
Proof.
  split.
  - revert c. apply Forall_forall. apply (bool_decide_unpack _). by vm_compute.
  - intros Hc. destruct c as [[] [] [] [] [] [] [] []];
      solve [ apply (bool_decide_unpack _); by vm_compute
            | exfalso; revert Hc; apply (bool_decide_unpack _); by vm_compute ].
Qed.

Lemma NoDup_letters : NoDup letters.
Proof. apply (bool_decide_unpack _). by vm_compute. Qed.

Lemma bind_omap {A B C} (f : A → option B) (g : B → list C) (l : list A) :
  omap f l ≫= g = l ≫= λ x, from_option g [] (f x).
Proof.
  induction l as [|x l IH]; [done|]. csimpl. rewrite <-IH.
  by destruct (f x).
Qed.

Lemma bind_nil_Forall {A B} (f : A → list B) (l : list A) :
  Forall (λ x, f x = []) l → l ≫= f = [].
Proof. induction 1 as [|x l Hx _ IH]; [done|]. csimpl. by rewrite Hx, IH. Qed.

Lemma concat_by_index {A} (b : list (list A)) :
  b ≫= id = seq 0 (length b) ≫= λ i, default [] (b !! i).
Proof.
  induction b as [|l b IH]; [done|]. csimpl. f_equal. rewrite IH.
  rewrite <-fmap_S_seq, list_fmap_bind. done.
Qed.

(** The entries of the enumeration, by address. *)
Lemma enumerate_by_address ds :
  well_formed ds →
  enumerate ds = key ← letters; index ← seq 0 26; chain_at ds key index.
Proof.
  intros Hwf. unfold enumerate, map_entries. rewrite bind_omap.
  match goal with |- _ ≫= ?F = _ => set (chains := F) end.
  assert (∀ key, chains key = seq 0 26 ≫= λ index, chain_at ds key index)
    as Hkey.
  { intros key. unfold chains, chain_at.
    destruct (mBuckets ds !! key) as [bucket|] eqn:Hb; [|done].
    destruct (wf_bucket _ Hwf _ _ Hb) as [_ Hlen].
    rewrite <-Hlen. simpl. by rewrite <-concat_by_index. }
  assert (∀ cs, Forall (λ c, ¬ uppercase_letter c) cs → cs ≫= chains = [])
    as Hother.
  { intros cs Hcs. apply bind_nil_Forall. eapply Forall_impl; [done|].
    intros key Hkey'. unfold chains.
    destruct (mBuckets ds !! key) as [bucket|] eqn:Hb; [|done].
    by destruct (wf_bucket _ Hwf _ _ Hb). }
  destruct chars_ascending_letters as (before & after & -> & Hb & Ha).
  rewrite !bind_app, (Hother _ Hb), (Hother _ Ha), app_nil_r, app_nil_l.
  apply list_bind_ext; [|done]. intros key. apply Hkey.
Qed.

Lemma bind_split_at {A B} (f g : A → list B) (l : list A) (a : A) :
  NoDup l → a ∈ l → (∀ x, x ≠ a → f x = g x) →
  ∃ before after,
    l ≫= f = before ++ f a ++ after ∧ l ≫= g = before ++ g a ++ after.
Proof.
  intros Hnd (l1 & l2 & ->)%list_elem_of_split Hfg.
  apply NoDup_app in Hnd as (_ & Hl1 & [Hl2 _]%NoDup_cons).
  assert (∀ l', a ∉ l' → l' ≫= f = l' ≫= g) as Hext.
  { intros l' Hl'. apply Forall_bind_ext, Forall_forall.
    intros x Hx. apply Hfg. by intros ->. }
  exists (l1 ≫= f), (l2 ≫= f). rewrite !bind_app, !bind_cons.
  split; [done|]. rewrite <-(Hext l1), <-(Hext l2); [done..|].
  intros Ha. apply (Hl1 a); [done|]. left.
Qed.

(** Replacing one chain replaces its stretch of the enumeration. *)
Lemma enumerate_with_chain ds key index l :
  well_formed ds → well_formed (with_chain ds key index l) →
  uppercase_letter key → (index < 26)%nat →
  ∃ before after,
    enumerate ds = before ++ chain_at ds key index ++ after
    ∧ enumerate (with_chain ds key index l) = before ++ l ++ after.
Proof.
  intros Hwf Hwf' Hkey Hi. rewrite !enumerate_by_address by done.
  destruct (bind_split_at
    (λ key', seq 0 26 ≫= λ index', chain_at ds key' index')
    (λ key', seq 0 26 ≫= λ index', chain_at (with_chain ds key index l) key' index')
    letters key) as (before1 & after1 & -> & ->).
  { apply NoDup_letters. }
  { by apply elem_of_letters. }
  { intros key' Hne. apply Forall_bind_ext, Forall_forall. intros index' _.
    rewrite chain_at_with_chain_ne; [done|congruence]. }
  destruct (bind_split_at
    (λ index', chain_at ds key index')
    (λ index', chain_at (with_chain ds key index l) key index')
    (seq 0 26) index) as (before2 & after2 & -> & ->).
  { apply NoDup_seq. }
  { apply elem_of_seq. lia. }
  { intros index' Hne. rewrite chain_at_with_chain_ne; [done|congruence]. }
  rewrite chain_at_with_chain_eq by done.
  exists (before1 ++ before2), (after2 ++ after1).
  by rewrite <-!(assoc_L (++)).
Qed.

(** ** Inversion of the two mutating operations *)

Lemma operator_add_Normal ds itemToAdd ds' :
  well_formed ds → operator_add ds itemToAdd = Yields (Normal ds') →
  ∃ r, tryParseItemIdentifier (GetID itemToAdd) = Some r
       ∧ (GetID itemToAdd
            ∉ GetID <$> chain_at ds (firstWordInitial r) (secondWordIndex r))
       ∧ ds' = with_chain ds (firstWordInitial r) (secondWordIndex r)
                 (itemToAdd
                  :: chain_at ds (firstWordInitial r) (secondWordIndex r)).
Proof.
  intros Hwf. rewrite operator_add_eq by done.
  destruct (tryParseItemIdentifier _) as [r|]; [|done]. cbv zeta.
  case_decide; [done|]. intros [= <-]. by exists r.
Qed.

Lemma operator_add_Throws ds itemToAdd what ds' :
  well_formed ds → operator_add ds itemToAdd = Yields (Throws what ds') →
  ds' = ds
  ∧ ((what = "Invalid ID"%string
      ∧ tryParseItemIdentifier (GetID itemToAdd) = None)
     ∨ (what = "Item already exists"%string
        ∧ ∃ r, tryParseItemIdentifier (GetID itemToAdd) = Some r
               ∧ GetID itemToAdd
                   ∈ (GetID <$> chain_at ds (firstWordInitial r)
                                  (secondWordIndex r)))).
Proof.
  intros Hwf. rewrite operator_add_eq by done.
  destruct (tryParseItemIdentifier _) as [r|].
  - cbv zeta. case_decide; [|done]. intros [= <- <-]. split; [done|].
    right. split; [done|]. by exists r.
  - intros [= <- <-]. split; [done|]. by left.
Qed.

Lemma operator_sub_Normal ds id ds' :
  well_formed ds → operator_sub ds id = Yields (Normal ds') →
  ∃ r l1 it l2,
    tryParseItemIdentifier id = Some r
    ∧ chain_at ds (firstWordInitial r) (secondWordIndex r) = l1 ++ it :: l2
    ∧ GetID it = id
    ∧ (id ∉ GetID <$> l1 ++ l2)
    ∧ ds' = with_chain ds (firstWordInitial r) (secondWordIndex r) (l1 ++ l2).
Proof.
  intros Hwf. rewrite operator_sub_eq by done.
  destruct (tryParseItemIdentifier _) as [r|]; [|done]. cbv zeta.
  destruct (list_find _ _) as [[n it]|] eqn:Hfind; [|done]. intros [= <-].
  apply list_find_identifier_Some in Hfind
    as (l1 & l2 & Hchain & _ & Hid & Hdel & _).
  exists r, l1, it, l2. rewrite Hdel. split_and!; try done.
  pose proof (wf_unique _ Hwf (firstWordInitial r) (secondWordIndex r)) as Hnd.
  rewrite Hchain, fmap_app, fmap_cons, Hid in Hnd.
  apply NoDup_app in Hnd as (_ & Hl1 & [Hl2 _]%NoDup_cons).
  rewrite fmap_app, elem_of_app. intros [Hin|Hin]; [|done].
  apply (Hl1 _ Hin). left.
Qed.

Lemma operator_sub_Throws ds id what ds' :
  well_formed ds → operator_sub ds id = Yields (Throws what ds') →
  ds' = ds
  ∧ ((what = "Invalid ID"%string ∧ tryParseItemIdentifier id = None)
     ∨ (what = "Item not found"%string
        ∧ ∃ r, tryParseItemIdentifier id = Some r
               ∧ id ∉ (GetID <$> chain_at ds (firstWordInitial r)
                                    (secondWordIndex r)))).
Proof.
  intros Hwf. rewrite operator_sub_eq by done.
  destruct (tryParseItemIdentifier _) as [r|].
  - cbv zeta. destruct (list_find _ _) as [[n it]|] eqn:Hfind; [done|].
    intros [= <- <-]. split; [done|]. right. split; [done|]. exists r.
    split; [done|]. by apply list_find_identifier_None.
  - intros [= <- <-]. split; [done|]. by left.
Qed.

(** ** Counting *)

Lemma to_int_small z : INT_MIN ≤ z ≤ INT_MAX → to_int z = z.
Proof.
  unfold to_int, INT_MIN, INT_MAX. intros Hz. rewrite Z.mod_small; lia.
Qed.

Lemma int_add_fits a b :
  INT_MIN ≤ a + b ≤ INT_MAX → int_add a b = Yields (a + b).
Proof. intros Hfit. unfold int_add. by rewrite decide_True. Qed.

(** The running count is an [int] after every round. *)
Lemma count_chain_int acc (itemList : list Item) t :
  count_chain acc itemList = Yields t → INT_MIN ≤ t ≤ INT_MAX.
Proof.
  destruct acc as [count|]; [|done]. unfold count_chain, int_add. simpl.
  case_decide; [|done]. by intros [= <-].
Qed.

Lemma count_chains_int acc (chains : list (list Item)) :
  (∀ t, acc = Yields t → INT_MIN ≤ t ≤ INT_MAX) →
  ∀ t, foldl count_chain acc chains = Yields t → INT_MIN ≤ t ≤ INT_MAX.
Proof.
  revert acc. induction chains as [|l chains IH]; intros acc Hacc; [done|].
  simpl. apply IH. intros t. apply count_chain_int.
Qed.

(** An empty chain leaves the running count as it is. *)
Lemma count_chain_empty acc :
  (∀ t, acc = Yields t → INT_MIN ≤ t ≤ INT_MAX) → count_chain acc [] = acc.
Proof.
  destruct acc as [count|]; [|done]. intros Hacc. unfold count_chain. simpl.
  change (to_int 0) with 0. rewrite int_add_fits, Z.add_0_r; [done|].
  rewrite Z.add_0_r. by apply Hacc.
Qed.

Lemma count_empty_chains acc (chains : list (list Item)) :
  (∀ t, acc = Yields t → INT_MIN ≤ t ≤ INT_MAX) →
  Forall (λ l, l = []) chains → foldl count_chain acc chains = acc.
Proof.
  intros Hacc. induction 1 as [|l chains -> _ IH]; [done|].
  simpl. by rewrite count_chain_empty.
Qed.

(** As long as the number of items fits an [int], so does every chain's
    length and every partial sum. *)
Lemma count_chains_exact (bucket : Bucket) (total : Z) :
  0 ≤ total → total + Z.of_nat (length (bucket ≫= id)) ≤ INT_MAX →
  foldl count_chain (Yields total) bucket
  = Yields (total + Z.of_nat (length (bucket ≫= id))).
Proof.
  revert total. induction bucket as [|l bucket IH]; intros total Htotal; csimpl.
  - by rewrite Z.add_0_r.
  - rewrite length_app. intros Hfit.
    rewrite to_int_small by (unfold INT_MIN, INT_MAX in *; lia).
    rewrite int_add_fits by (unfold INT_MIN, INT_MAX in *; lia).
    rewrite IH by lia. f_equal. lia.
Qed.

Lemma count_buckets_exact (entries : list (ascii * Bucket)) (total : Z) :
  0 ≤ total →
  total + Z.of_nat (length (entries ≫= λ bucketEntry, bucketEntry.2 ≫= id))
    ≤ INT_MAX →
  foldl (λ totalCount bucketEntry,
           foldl count_chain totalCount (bucketEntry.2 : Bucket))
        (Yields total) entries
  = Yields (total + Z.of_nat (length (entries ≫= λ bucketEntry,
                                        bucketEntry.2 ≫= id))).
Proof.
  revert total.
  induction entries as [|[key bucket] entries IH]; intros total Htotal; csimpl.
  - by rewrite Z.add_0_r.
  - rewrite length_app. intros Hfit.
    rewrite count_chains_exact by lia. rewrite IH by lia. f_equal. lia.
Qed.

Lemma GetItemsNumber_exact ds :
  Z.of_nat (length (enumerate ds)) ≤ INT_MAX →
  GetItemsNumber ds = Yields (Z.of_nat (length (enumerate ds))).
Proof.
  unfold GetItemsNumber, enumerate. intros Hfit.
  pose proof (count_buckets_exact (map_entries (mBuckets ds)) 0 (Z.le_refl 0))
    as Hcount.
  rewrite !Z.add_0_l in Hcount. exact (Hcount Hfit).
Qed.

Lemma omap_cons {A B} (f : A → option B) (x : A) (l : list A) :
  omap f (x :: l) = from_option (λ y, y :: omap f l) (omap f l) (f x).
Proof. simpl. by destruct (f x). Qed.

Lemma chains_by_index {A} (b : list (list A)) :
  b = seq 0 (length b) ≫= λ i, [default [] (b !! i)].
Proof.
  induction b as [|l b IH]; [done|]. csimpl. f_equal.
  rewrite <-fmap_S_seq, list_fmap_bind. done.
Qed.

(** The count, by address: a bucket that is not there counts as 26 empty
    chains, which add nothing. *)
Lemma GetItemsNumber_by_address ds :
  well_formed ds →
  GetItemsNumber ds
  = foldl count_chain (Yields 0)
      (key ← letters; index ← seq 0 26; [chain_at ds key index]).
Proof.
  intros Hwf. unfold GetItemsNumber, map_entries.
  assert (∀ cs, Forall (λ c, ¬ uppercase_letter c) cs →
          omap (λ key, pair key <$> mBuckets ds !! key) cs = []) as Hother.
  { intros cs. induction 1 as [|c cs Hc _ IH]; [done|]. simpl.
    destruct (mBuckets ds !! c) as [bucket|] eqn:Hb; [|done].
    by destruct (wf_bucket _ Hwf _ _ Hb). }
  destruct chars_ascending_letters as (before & after & -> & Hb & Ha).
  rewrite !omap_app, (Hother _ Hb), (Hother _ Ha), app_nil_r, app_nil_l.
  assert (∀ t, Yields 0 = Yields t → INT_MIN ≤ t ≤ INT_MAX) as Hacc.
  { by intros t [= <-]. }
  revert Hacc. generalize (Yields 0). generalize letters.
  induction l as [|key keys IH]; intros acc Hacc; [done|].
  rewrite omap_cons, bind_cons, foldl_app.
  destruct (mBuckets ds !! key) as [bucket|] eqn:Hbucket.
  - destruct (wf_bucket _ Hwf _ _ Hbucket) as [_ Hlen].
    cbn [fmap option_fmap option_map from_option foldl snd].
    replace (seq 0 26 ≫= λ index, [chain_at ds key index]) with bucket.
    + apply IH. by apply count_chains_int.
    + rewrite (chains_by_index bucket) at 1. rewrite Hlen.
      apply list_bind_ext; [|done]. intros index. unfold chain_at.
      by rewrite Hbucket.
  - cbn [fmap option_fmap option_map from_option].
    rewrite (count_empty_chains acc) by
      (try done; apply Forall_bind; apply Forall_forall; intros index _;
       unfold chain_at; rewrite Hbucket; by repeat constructor).
    by apply IH.
Qed.

(** The chains alone determine what [GetItemsNumber] does. *)
Lemma GetItemsNumber_chains ds1 ds2 :
  well_formed ds1 → well_formed ds2 →
  (∀ key index, chain_at ds2 key index = chain_at ds1 key index) →
  GetItemsNumber ds2 = GetItemsNumber ds1.
Proof.
  intros Hwf1 Hwf2 Hchains. rewrite !GetItemsNumber_by_address by done.
  f_equal. apply list_bind_ext; [|done]. intros key.
  apply list_bind_ext; [|done]. intros index. by rewrite Hchains.
Qed.

(** ** Printing *)

Lemma string_app_assoc (a b c : string) : a +:+ (b +:+ c) = (a +:+ b) +:+ c.
Proof.
  induction a as [|x a IH]; [done|].
  change (String x (a +:+ (b +:+ c)) = String x ((a +:+ b) +:+ c)).
  by rewrite IH.
Qed.

Lemma string_app_empty_r (a : string) : a +:+ EmptyString = a.
Proof.
  induction a as [|x a IH]; [done|].
  change (String x (a +:+ EmptyString) = String x a). by rewrite IH.
Qed.

Lemma output_chain (out : string) (l : list Item) :
  foldl (λ out currentItem, Item_output out currentItem +:+ endl) out l
  = out +:+ lines l.
Proof.
  revert out. induction l as [|it l IH]; intros out; simpl.
  - by rewrite string_app_empty_r.
  - rewrite IH. unfold Item_line, Item_output.
    destruct (pID it); by rewrite !string_app_assoc, string_app_empty_r.
Qed.

Lemma lines_app l1 l2 : lines (l1 ++ l2) = lines l1 +:+ lines l2.
Proof.
  induction l1 as [|it l1 IH]; [done|]. simpl.
  by rewrite IH, string_app_assoc.
Qed.

Lemma DataStructure_output_enumerate out ds :
  DataStructure_output out ds = out +:+ lines (enumerate ds).
Proof.
  unfold DataStructure_output, enumerate. revert out.
  induction (map_entries (mBuckets ds)) as [|[key bucket] entries IH];
    intros out; csimpl.
  - by rewrite string_app_empty_r.
  - rewrite lines_app, string_app_assoc, <-IH. f_equal. clear IH.
    revert out. induction bucket as [|l bucket IHb]; intros out; csimpl.
    + by rewrite string_app_empty_r.
    + rewrite lines_app, string_app_assoc, <-IHb. f_equal.
      apply output_chain.
Qed.

(** ** What the enumeration holds *)

Lemma fmap_bind_list {A B C} (f : B → C) (g : A → list B) (l : list A) :
  f <$> (l ≫= g) = l ≫= λ x, f <$> g x.
Proof.
  induction l as [|x l IH]; [done|]. csimpl. by rewrite fmap_app, IH.
Qed.

Lemma chain_at_nonempty_address ds key index it :
  well_formed ds → it ∈ chain_at ds key index →
  key ∈ letters ∧ index ∈ seq 0 26.
Proof.
  intros Hwf Hit. pose proof (wf_placed _ Hwf _ _ _ Hit) as Hr. split.
  - apply elem_of_letters. apply (tryParseItemIdentifier_key_letter _ _ Hr).
  - apply elem_of_seq.
    pose proof (tryParseItemIdentifier_index_bound _ _ Hr). simpl in *. lia.
Qed.

Lemma elem_of_enumerate ds it :
  well_formed ds →
  it ∈ enumerate ds ↔ ∃ key index, it ∈ chain_at ds key index.
Proof.
  intros Hwf. rewrite enumerate_by_address by done.
  rewrite list_elem_of_bind. split.
  - intros (key & (index & Hit & _)%list_elem_of_bind & _). eauto.
  - intros (key & index & Hit).
    destruct (chain_at_nonempty_address _ _ _ _ Hwf Hit) as [Hkey Hindex].
    exists key. split; [|done]. apply list_elem_of_bind. by exists index.
Qed.

Lemma elem_of_enumerate_placed ds it :
  well_formed ds →
  it ∈ enumerate ds ↔
  ∃ r, tryParseItemIdentifier (GetID it) = Some r
       ∧ it ∈ chain_at ds (firstWordInitial r) (secondWordIndex r).
Proof.
  intros Hwf. rewrite elem_of_enumerate by done. split.
  - intros (key & index & Hit).
    exists {| firstWordInitial := key; secondWordIndex := index |}.
    split; [|done]. by apply (wf_placed _ Hwf).
  - intros (r & _ & Hit). eauto.
Qed.

Lemma NoDup_identifiers ds :
  well_formed ds → NoDup (GetID <$> enumerate ds).
Proof.
  intros Hwf. rewrite enumerate_by_address by done.
  assert (∀ key index id, id ∈ GetID <$> chain_at ds key index →
    tryParseItemIdentifier id
    = Some {| firstWordInitial := key; secondWordIndex := index |}) as Haddr.
  { intros key index id (it & -> & Hit)%list_elem_of_fmap.
    by apply (wf_placed _ Hwf). }
  rewrite fmap_bind_list. apply NoDup_bind; [| |apply NoDup_letters].
  - intros key1 key2 id _ _.
    rewrite !fmap_bind_list.
    intros (i1 & H1 & _)%list_elem_of_bind (i2 & H2 & _)%list_elem_of_bind.
    apply Haddr in H1, H2. congruence.
  - intros key _. rewrite fmap_bind_list.
    apply NoDup_bind; [| |apply NoDup_seq].
    + intros i1 i2 id _ _ H1 H2. apply Haddr in H1, H2. congruence.
    + intros index _. apply Hwf.
Qed.

Lemma Item_equal_identifier (a b : Item) :
  Item_equal a b = true ↔ GetID a = GetID b.
Proof.
  unfold Item_equal, GetID. destruct (pID a), (pID b); try done.
  rewrite Z.eqb_eq, strcmp_contents_eq. split; congruence.
Qed.

(** ** Sequences of calls *)

Lemma run_reachable calls t :
  reachable (container t) →
  ∃ t', run calls t = Yields t' ∧ reachable (container t').
Proof.
  revert t. induction calls as [|c calls IH]; intros t Hreach; simpl.
  - eauto.
  - unfold tally_call.
    destruct (call_defined (container t) c) as [r Hr];
      [by apply reachable_well_formed|].
    rewrite Hr. simpl. apply IH.
    pose proof (reachable_call _ _ _ Hreach Hr) as Hreach'.
    by destruct r, c.
Qed.

Lemma operator_add_enumerate ds itemToAdd ds' :
  well_formed ds → operator_add ds itemToAdd = Yields (Normal ds') →
  ∃ before after,
    enumerate ds = before ++ after
    ∧ enumerate ds' = before ++ itemToAdd :: after.
Proof.
  intros Hwf Hadd.
  pose proof (operator_add_well_formed _ _ _ Hwf Hadd) as Hwf'.
  destruct (operator_add_Normal _ _ _ Hwf Hadd) as (r & Hr & _ & ->).
  destruct (enumerate_with_chain ds (firstWordInitial r) (secondWordIndex r)
    (itemToAdd :: chain_at ds (firstWordInitial r) (secondWordIndex r)))
    as (before & after & Hbefore & Hafter); try done.
  - apply (tryParseItemIdentifier_key_letter _ _ Hr).
  - apply (tryParseItemIdentifier_index_bound _ _ Hr).
  - exists before,
      (chain_at ds (firstWordInitial r) (secondWordIndex r) ++ after).
    by rewrite Hbefore, Hafter.
Qed.

Lemma operator_sub_enumerate ds id ds' :
  well_formed ds → operator_sub ds id = Yields (Normal ds') →
  ∃ before it after,
    GetID it = id
    ∧ enumerate ds = before ++ it :: after
    ∧ enumerate ds' = before ++ after.
Proof.
  intros Hwf Hsub.
  pose proof (operator_sub_well_formed _ _ _ Hwf Hsub) as Hwf'.
  destruct (operator_sub_Normal _ _ _ Hwf Hsub)
    as (r & l1 & it & l2 & Hr & Hchain & Hid & _ & ->).
  destruct (enumerate_with_chain ds (firstWordInitial r) (secondWordIndex r)
    (l1 ++ l2)) as (before & after & Hbefore & Hafter); try done.
  - apply (tryParseItemIdentifier_key_letter _ _ Hr).
  - apply (tryParseItemIdentifier_index_bound _ _ Hr).
  - exists (before ++ l1), it, (l2 ++ after).
    rewrite Hbefore, Hafter, Hchain. split; [done|].
    by rewrite <-!(assoc_L (++)).
Qed.

Lemma tally_call_balance t c t' :
  reachable (container t) → tally_call t c = Yields t' →
  (length (enumerate (container t)) + removed t = added t)%nat →
  (length (enumerate (container t')) + removed t' = added t')%nat.
Proof.
  intros Hwf%reachable_well_formed. unfold tally_call.
  destruct (call (container t) c) as [r|] eqn:Hr; [|done].
  intros [= <-] Hbal. destruct r as [ds'|what ds'], c as [itemToAdd|id];
    simpl in *.
  - destruct (operator_add_enumerate _ _ _ Hwf Hr)
      as (before & after & Hb & ->).
    rewrite Hb in Hbal. rewrite !length_app in *. simpl. lia.
  - destruct (operator_sub_enumerate _ _ _ Hwf Hr)
      as (before & it & after & _ & Hb & ->).
    rewrite Hb in Hbal. rewrite !length_app in *. simpl in Hbal. lia.
  - by destruct (operator_add_Throws _ _ _ _ Hwf Hr) as [-> _].
  - by destruct (operator_sub_Throws _ _ _ _ Hwf Hr) as [-> _].
Qed.

Lemma run_balance calls t :
  reachable (container t) →
  (length (enumerate (container t)) + removed t = added t)%nat →
  ∃ t', run calls t = Yields t'
        ∧ reachable (container t')
        ∧ (length (enumerate (container t')) + removed t' = added t')%nat.
Proof.
  revert t. induction calls as [|c calls IH]; intros t Hreach Hbal; simpl.
  - eauto.
  - destruct (run_reachable [c] t Hreach) as (t1 & Hrun & Hreach1).
    simpl in Hrun. destruct (tally_call t c) as [t1'|] eqn:Hcall; [|done].
    injection Hrun as ->. simpl. apply IH; [done|].
    by apply (tally_call_balance t c).
Qed.

(** ** A sample container *)

Lemma reachable_one_item : reachable one_item.
Proof.
  exact (reachable_call DataStructure_new (Add cafe_noir) (Normal one_item)
           reachable_new eq_refl).
Qed.

Lemma reachable_after calls : reachable (after calls).
Proof.
  unfold after.
  by destruct (run_reachable calls start reachable_new) as (t & -> & Hreach).
Qed.

(** ** Uniqueness of identifiers *)

(** C2. In every container a program can reach, no two stored items have the
    same identifier, and no two positions of the enumeration hold items that
    [Item::operator==] finds equal.  Adding an item whose identifier is
    already stored throws "Item already exists" and leaves the container, and
    with it the count, as it was.  Whatever call comes next, the identifiers
    stay unique. *)
Theorem identifier_uniqueness (ds : DataStructure) :
  reachable ds →
  NoDup (GetID <$> enumerate ds)
  ∧ (∀ i j a b,
       enumerate ds !! i = Some a → enumerate ds !! j = Some b →
       Item_equal a b = true → i = j)
  ∧ (∀ itemToAdd,
       GetID itemToAdd ∈ GetID <$> enumerate ds →
       ∃ ds',
         operator_add ds itemToAdd = Yields (Throws "Item already exists" ds')
         ∧ ds' = ds
         ∧ GetItemsNumber ds' = GetItemsNumber ds)
  ∧ (∀ c, ∃ r, call ds c = Yields r
               ∧ NoDup (GetID <$> enumerate (state_of r))).
Proof.
  intros Hreach. pose proof (reachable_well_formed _ Hreach) as Hwf.
  pose proof (NoDup_identifiers _ Hwf) as Hnd. split_and!.
  - done.
  - intros i j a b Ha Hb Heq%Item_equal_identifier.
    apply (NoDup_lookup _ i j (GetID a) Hnd).
    + by rewrite list_lookup_fmap, Ha.
    + by rewrite list_lookup_fmap, Hb, Heq.
  - intros itemToAdd (it & Hid & Hit)%list_elem_of_fmap.
    exists ds. split; [|done].
    apply elem_of_enumerate_placed in Hit as (r & Hr & Hit); [|done].
    rewrite operator_add_eq by done. rewrite Hid, Hr. cbv zeta.
    rewrite decide_True; [done|]. rewrite <-Hid.
    apply list_elem_of_fmap. eauto.
  - intros c. destruct (call_defined ds c Hwf) as [r Hr]. exists r.
    split; [done|]. apply NoDup_identifiers. by apply (call_well_formed ds c).
Qed.

Lemma identifier_uniqueness_witness :
  reachable one_item
  ∧ GetID cafe_noir ∈ GetID <$> enumerate one_item
  ∧ ∃ ds',
      operator_add one_item cafe_noir
      = Yields (Throws "Item already exists" ds')
      ∧ ds' = one_item
      ∧ GetItemsNumber ds' = GetItemsNumber one_item.
Proof.
  split_and!; [exact reachable_one_item|vm_compute; apply list_elem_of_here|].
  apply (identifier_uniqueness one_item reachable_one_item).
  vm_compute. apply list_elem_of_here.
Defined.

(** ** Failing calls *)

(** C3. A call that throws leaves the container exactly as it was: [operator+=]
    throws only "Invalid ID" or "Item already exists", [operator-=] only
    "Invalid ID" or "Item not found", and after either the count, every
    lookup and the enumeration are what they were before.  An addition that
    returns leaves the container with exactly one stored item more. *)
Theorem failed_calls_change_nothing (ds : DataStructure) :
  reachable ds →
  (∀ itemToAdd what ds',
     operator_add ds itemToAdd = Yields (Throws what ds') →
     (what = "Invalid ID"%string ∨ what = "Item already exists"%string)
     ∧ ds' = ds
     ∧ GetItemsNumber ds' = GetItemsNumber ds
     ∧ (∀ id, GetItem ds' id = GetItem ds id)
     ∧ enumerate ds' = enumerate ds)
  ∧ (∀ id what ds',
       operator_sub ds id = Yields (Throws what ds') →
       (what = "Invalid ID"%string ∨ what = "Item not found"%string)
       ∧ ds' = ds
       ∧ GetItemsNumber ds' = GetItemsNumber ds
       ∧ (∀ id', GetItem ds' id' = GetItem ds id')
       ∧ enumerate ds' = enumerate ds)
  ∧ (∀ itemToAdd ds',
       operator_add ds itemToAdd = Yields (Normal ds') →
       length (enumerate ds') = S (length (enumerate ds))).
Proof.
  intros Hwf%reachable_well_formed. split_and!.
  - intros itemToAdd what ds' Hadd.
    destruct (operator_add_Throws _ _ _ _ Hwf Hadd) as [-> Hwhat].
    split_and!; try done. destruct Hwhat as [[-> _]|[-> _]]; auto.
  - intros id what ds' Hsub.
    destruct (operator_sub_Throws _ _ _ _ Hwf Hsub) as [-> Hwhat].
    split_and!; try done. destruct Hwhat as [[-> _]|[-> _]]; auto.
  - intros itemToAdd ds' Hadd.
    destruct (operator_add_enumerate _ _ _ Hwf Hadd)
      as (before & after & Hb & Ha).
    rewrite Hb, Ha, !length_app. simpl. lia.
Qed.

Lemma failed_calls_change_nothing_witness :
  reachable one_item
  ∧ operator_sub one_item (Some "Cafe Latte"%string)
    = Yields (Throws "Item not found" one_item)
  ∧ (∀ what ds',
       operator_sub one_item (Some "Cafe Latte"%string)
       = Yields (Throws what ds') →
       (what = "Invalid ID"%string ∨ what = "Item not found"%string)
       ∧ ds' = one_item
       ∧ GetItemsNumber ds' = GetItemsNumber one_item
       ∧ (∀ id', GetItem ds' id' = GetItem one_item id')
       ∧ enumerate ds' = enumerate one_item)
  ∧ operator_add one_item alpha_young
    = Yields (Normal (after [Add cafe_noir; Add alpha_young]))
  ∧ length (enumerate (after [Add cafe_noir; Add alpha_young]))
    = S (length (enumerate one_item)).
Proof.
  split_and!; [exact reachable_one_item|reflexivity| |reflexivity|].
  - exact (proj1 (proj2
      (failed_calls_change_nothing one_item reachable_one_item))
      (Some "Cafe Latte"%string)).
  - exact (proj2 (proj2
      (failed_calls_change_nothing one_item reachable_one_item))
      alpha_young (after [Add cafe_noir; Add alpha_young]) eq_refl).
Defined.

(** ** The count *)

Lemma binary_digits_inj p q : binary_digits p = binary_digits q → p = q.
Proof.
  revert q. induction p as [p IH|p IH|]; intros [q|q|]; simpl; try done.
  - intros [= Hpq]. f_equal. by apply IH.
  - by destruct p.
  - intros [= Hpq]. f_equal. by apply IH.
  - by destruct q.
Qed.

Lemma numbered_item_inj i j :
  GetID (numbered_item i) = GetID (numbered_item j) → i = j.
Proof.
  intros [= Hij]. by apply SuccNat2Pos.inj, binary_digits_inj.
Qed.

Lemma numbered_item_address i :
  tryParseItemIdentifier (GetID (numbered_item i))
  = Some {| firstWordInitial := "A"; secondWordIndex := 0 |}.
Proof. reflexivity. Qed.

(** Adding the items numbered [j], [j + 1], ... to a container that holds
    only items numbered below [j]: every addition returns normally, and the
    container holds numbered items only. *)
Lemma run_numbered_items k :
  ∀ j t,
    reachable (container t) →
    (∀ it, it ∈ enumerate (container t) →
           ∃ i, (i < j)%nat ∧ GetID it = GetID (numbered_item i)) →
    ∃ t', run (Add ∘ numbered_item <$> seq j k) t = Yields t'
          ∧ added t' = (added t + k)%nat ∧ removed t' = removed t
          ∧ ∀ it, it ∈ enumerate (container t') →
                  ∃ i, GetID it = GetID (numbered_item i).
Proof.
  induction k as [|k IH]; intros j t Hreach Hbelow.
  - exists t. split_and!; [done|lia|done|].
    intros it Hit. destruct (Hbelow it Hit) as (i & _ & Hid). eauto.
  - pose proof (reachable_well_formed _ Hreach) as Hwf.
    assert (∃ ds', operator_add (container t) (numbered_item j)
                   = Yields (Normal ds')) as [ds' Hadd].
    { rewrite operator_add_eq, numbered_item_address by done. cbv zeta.
      cbn [firstWordInitial secondWordIndex].
      rewrite decide_False; [by eexists|].
      intros (it & Hid & Hit)%list_elem_of_fmap.
      destruct (Hbelow it) as (i & Hi & Hid').
      { apply elem_of_enumerate; eauto. }
      rewrite Hid' in Hid. apply numbered_item_inj in Hid. lia. }
    cbn [seq fmap list_fmap run]. unfold tally_call. cbn [call compose].
    rewrite Hadd. cbn [mbind behaviour_bind].
    destruct (IH (S j) (mkTally ds' (S (added t)) (removed t)))
      as (t'' & Hrun & Hadded & Hremoved & Hnumbered).
    + exact (reachable_call _ (Add (numbered_item j)) _ Hreach Hadd).
    + intros it Hit.
      destruct (operator_add_enumerate _ _ _ Hwf Hadd)
        as (before & after & Hb & Ha).
      cbn [container] in Hit. rewrite Ha in Hit.
      assert (it = numbered_item j ∨ it ∈ enumerate (container t))
        as [->|Hold].
      { rewrite Hb, elem_of_app.
        apply elem_of_app in Hit as [Hit|Hit]; [auto|].
        apply elem_of_cons in Hit as [->|Hit]; auto. }
      * exists j. split; [lia|done].
      * destruct (Hbelow it Hold) as (i & Hi & Hid).
        exists i. split; [lia|done].
    + exists t''. split; [done|]. simpl in *. split_and!; [lia|done|done].
Qed.

Lemma to_int_int z : INT_MIN ≤ to_int z ≤ INT_MAX.
Proof.
  unfold to_int, INT_MIN, INT_MAX.
  pose proof (Z.mod_pos_bound (z + 2 ^ 31) (2 ^ 32)). lia.
Qed.

Lemma letters_first :
  ∃ others, letters = "A"%char :: others ∧ "A"%char ∉ others.
Proof.
  exists (tail letters). split; [done|].
  pose proof NoDup_letters as Hnd.
  change letters with ("A"%char :: tail letters) in Hnd.
  by apply NoDup_cons in Hnd as [? _].
Qed.

(** When every stored item has the address [("A", 0)], that one chain holds
    them all: every other chain adds 0 to the count, and the count is the
    length of the one chain converted to [int]. *)
Lemma count_of_one_chain ds :
  well_formed ds →
  (∀ it, it ∈ enumerate ds →
         tryParseItemIdentifier (GetID it)
         = Some {| firstWordInitial := "A"; secondWordIndex := 0 |}) →
  GetItemsNumber ds = Yields (to_int (Z.of_nat (length (enumerate ds)))).
Proof.
  intros Hwf Haddress.
  assert (∀ key index, (key, index) ≠ ("A"%char, 0%nat) →
                       chain_at ds key index = []) as Hempty.
  { intros key index Hne.
    destruct (chain_at ds key index) as [|it l] eqn:Hchain; [done|].
    assert (it ∈ chain_at ds key index) as Hit by (rewrite Hchain; left).
    pose proof (wf_placed _ Hwf _ _ _ Hit) as Hplaced.
    rewrite Haddress in Hplaced by (apply elem_of_enumerate; eauto).
    exfalso. apply Hne. congruence. }
  destruct letters_first as (others & Hletters & Hothers).
  assert (seq 0 26 = 0%nat :: seq 1 25) as Hseq by reflexivity.
  assert (Forall (λ l : list Item, l = [])
            (seq 1 25 ≫= λ index, [chain_at ds "A" index])) as Hrow.
  { apply Forall_bind, Forall_forall. intros index Hindex%elem_of_seq.
    repeat constructor. apply Hempty. intros [= ->]. lia. }
  assert (Forall (λ l : list Item, l = [])
            (others ≫= λ key, seq 0 26 ≫= λ index, [chain_at ds key index]))
    as Hrows.
  { apply Forall_bind, Forall_forall. intros key Hkey.
    apply Forall_bind, Forall_forall. intros index _.
    repeat constructor. apply Hempty. intros [= -> _]. done. }
  assert (enumerate ds = chain_at ds "A" 0) as Henum.
  { rewrite enumerate_by_address, Hletters, bind_cons by done.
    rewrite Hseq at 1. rewrite bind_cons.
    rewrite (bind_nil_Forall _ (seq 1 25)), (bind_nil_Forall _ others).
    - by rewrite !app_nil_r.
    - apply Forall_forall. intros key Hkey.
      apply bind_nil_Forall, Forall_forall. intros index _.
      apply Hempty. intros [= -> _]. done.
    - apply Forall_forall. intros index Hindex%elem_of_seq.
      apply Hempty. intros [= ->]. lia. }
  rewrite GetItemsNumber_by_address, Hletters, bind_cons by done.
  rewrite Hseq at 1. rewrite bind_cons, !foldl_app.
  change (foldl count_chain (Yields 0) [chain_at ds "A" 0])
    with (int_add 0 (to_int (Z.of_nat (length (chain_at ds "A" 0))))).
  rewrite int_add_fits, Z.add_0_l by (rewrite Z.add_0_l; apply to_int_int).
  assert (∀ t, Yields (to_int (Z.of_nat (length (chain_at ds "A" 0))))
               = Yields t → INT_MIN ≤ t ≤ INT_MAX) as Hacc.
  { intros t [= <-]. apply to_int_int. }
  rewrite (count_empty_chains _ _ Hacc Hrow).
  rewrite (count_empty_chains _ _ Hacc Hrows). by rewrite Henum.
Qed.

Lemma count_after_numbered_items k :
  ∃ t, run (Add ∘ numbered_item <$> seq 0 k) start = Yields t
       ∧ added t = k ∧ removed t = 0%nat
       ∧ GetItemsNumber (container t) = Yields (to_int (Z.of_nat k)).
Proof.
  destruct (run_numbered_items k 0 start reachable_new)
    as (t & Hrun & Hadded & Hremoved & Hnumbered).
  { intros it Hit. by apply elem_of_nil in Hit. }
  destruct (run_balance (Add ∘ numbered_item <$> seq 0 k)
              start reachable_new eq_refl) as (t1 & Hrun1 & Hreach & Hbal).
  rewrite Hrun in Hrun1. injection Hrun1 as <-.
  simpl in Hadded, Hremoved. exists t. split_and!; try done.
  rewrite count_of_one_chain.
  - do 2 f_equal. lia.
  - by apply reachable_well_formed.
  - intros it Hit. destruct (Hnumbered it Hit) as (i & ->).
    apply numbered_item_address.
Qed.

(** The claim C4 as the spec words it fails where the number of items does
    not fit an [int]: after 2^31 additions that all return normally, of items
    with the identifiers "A A1", "A A01", "A A11", ..., and no removal, the
    one chain has 2^31 items, its length converts to the [int] -2^31, every
    other chain adds 0, and -2^31 is what [GetItemsNumber] returns, not
    2^31. *)
Lemma count_beyond_int :
  ∃ t,
    run (Add ∘ numbered_item <$> seq 0 (Z.to_nat (2 ^ 31))) start = Yields t
    ∧ Z.of_nat (added t) = 2 ^ 31 ∧ removed t = 0%nat
    ∧ GetItemsNumber (container t) = Yields (- 2 ^ 31)
    ∧ GetItemsNumber (container t)
      ≠ Yields (Z.of_nat (added t) - Z.of_nat (removed t)).
Proof.
  generalize (count_after_numbered_items (Z.to_nat (2 ^ 31))).
  generalize (Z2Nat.id (2 ^ 31)).
  generalize (Z.to_nat (2 ^ 31)).
  intros k Hk (t & Hrun & Hadded & Hremoved & Hcount).
  exists t. rewrite Hcount, Hadded, Hremoved, Hk by (by vm_compute).
  split_and!; try done.
Qed.

(** C4. Whatever sequence of calls a program makes on a new container, the
    calls all have defined behaviour, and afterwards the container holds as
    many items as additions returned normally minus removals that returned
    normally; [GetItemsNumber] returns that number whenever it is at most
    [INT_MAX].  In any container whose chains together hold at most [INT_MAX]
    items, [GetItemsNumber] returns the number of items in all chains of all
    buckets. *)
Theorem count_consistency :
  (∀ calls, ∃ t,
     run calls start = Yields t
     ∧ (removed t ≤ added t)%nat
     ∧ length (enumerate (container t)) = (added t - removed t)%nat
     ∧ (Z.of_nat (added t) - Z.of_nat (removed t) ≤ INT_MAX →
        GetItemsNumber (container t)
        = Yields (Z.of_nat (added t) - Z.of_nat (removed t))))
  ∧ (∀ ds, Z.of_nat (length (enumerate ds)) ≤ INT_MAX →
           GetItemsNumber ds = Yields (Z.of_nat (length (enumerate ds))))
  ∧ (∃ t, run [Add beta_zed; Add alpha_young; Add alpha_young;
               Remove (Some "Beta Zed"%string);
               Remove (Some "Beta Zed"%string); Add alpha_apple] start
          = Yields t
          ∧ added t = 3%nat ∧ removed t = 1%nat
          ∧ GetItemsNumber (container t) = Yields 2).
Proof.
  split_and!; [| |by eexists].
  - intros calls.
    destruct (run_balance calls start reachable_new eq_refl)
      as (t & Hrun & _ & Hbal).
    exists t. split_and!; try done; try lia.
    intros Hfit. rewrite GetItemsNumber_exact by lia. f_equal. lia.
  - apply GetItemsNumber_exact.
Qed.

Lemma count_consistency_witness :
  Z.of_nat (length (enumerate one_item)) ≤ INT_MAX
  ∧ GetItemsNumber one_item = Yields (Z.of_nat (length (enumerate one_item))).
Proof.
  split; [by vm_compute|].
  apply (proj1 (proj2 count_consistency) one_item). by vm_compute.
Defined.

(** ** Insert, find, remove *)

(** C5. When an addition to a reachable container returns, looking up the
    item's identifier straight away returns the item added, which
    [Item::operator==] finds equal to it; removing that identifier then
    returns normally, and looking it up once more returns [nullptr]. *)
Theorem insert_find_remove_round_trip (ds ds1 : DataStructure) (itemToAdd : Item) :
  reachable ds →
  operator_add ds itemToAdd = Yields (Normal ds1) →
  ¬ invalid_identifier (GetID itemToAdd)
  ∧ (∃ found,
       GetItem ds1 (GetID itemToAdd) = Yields (Some found)
       ∧ Item_equal found itemToAdd = true
       ∧ found = itemToAdd)
  ∧ ∃ ds2,
      operator_sub ds1 (GetID itemToAdd) = Yields (Normal ds2)
      ∧ GetItem ds2 (GetID itemToAdd) = Yields None.
Proof.
  intros Hwf%reachable_well_formed Hadd.
  pose proof (operator_add_well_formed _ _ _ Hwf Hadd) as Hwf1.
  destruct (operator_add_Normal _ _ _ Hwf Hadd) as (r & Hr & Hfresh & ->).
  pose proof (tryParseItemIdentifier_index_bound _ _ Hr) as Hi.
  pose proof (tryParseItemIdentifier_key_letter _ _ Hr) as Hkey.
  simpl in Hwf1.
  set (chain := chain_at ds (firstWordInitial r) (secondWordIndex r)) in *.
  assert (list_find (λ it, GetID it = GetID itemToAdd) (itemToAdd :: chain)
          = Some (0%nat, itemToAdd)) as Hfind.
  { cbn [list_find]. by rewrite decide_True. }
  split_and!.
  - rewrite <-tryParseItemIdentifier_None. congruence.
  - exists itemToAdd. split_and!; [|by apply Item_equal_identifier|done].
    rewrite GetItem_eq, Hr by done.
    by rewrite chain_at_with_chain_eq, Hfind by done.
  - eexists. split.
    + rewrite operator_sub_eq, Hr by done. cbv zeta.
      by rewrite chain_at_with_chain_eq, Hfind by done.
    + simpl. rewrite GetItem_eq, Hr.
      * rewrite chain_at_with_chain_eq by done.
        apply list_find_identifier_None in Hfresh. by rewrite Hfresh.
      * apply well_formed_with_chain; try done.
        -- intros it Hit. apply (wf_placed _ Hwf) in Hit. by destruct r.
        -- apply Hwf.
Qed.

Lemma insert_find_remove_round_trip_witness :
  reachable DataStructure_new
  ∧ operator_add DataStructure_new cafe_noir = Yields (Normal one_item)
  ∧ GetItem one_item (Some "Cafe Noir"%string) = Yields (Some cafe_noir)
  ∧ ∃ ds2,
      operator_sub one_item (Some "Cafe Noir"%string) = Yields (Normal ds2)
      ∧ GetItem ds2 (Some "Cafe Noir"%string) = Yields None.
Proof.
  split_and!; [exact reachable_new|reflexivity|reflexivity|].
  exact (proj2 (proj2 (insert_find_remove_round_trip DataStructure_new
    one_item cafe_noir reachable_new eq_refl))).
Defined.

(** ** Enumeration *)

Lemma NoDup_fmap_eq {A B} (f : A → B) (l : list A) (x y : A) :
  NoDup (f <$> l) → x ∈ l → y ∈ l → f x = f y → x = y.
Proof.
  intros Hnd [i Hi]%list_elem_of_lookup [j Hj]%list_elem_of_lookup Hxy.
  assert (i = j) as ->; [|congruence].
  apply (NoDup_lookup _ i j (f x) Hnd).
  - by rewrite list_lookup_fmap, Hi.
  - by rewrite list_lookup_fmap, Hj, Hxy.
Qed.

Lemma GetItem_stored ds it :
  well_formed ds →
  it ∈ enumerate ds ↔ GetItem ds (GetID it) = Yields (Some it).
Proof.
  intros Hwf. rewrite GetItem_eq by done. split.
  - intros (r & Hr & Hit)%elem_of_enumerate_placed; [|done]. rewrite Hr.
    destruct (list_find_elem_of (λ x, GetID x = GetID it) _ it Hit eq_refl)
      as [[n x] Hfind].
    rewrite Hfind. simpl. do 2 f_equal.
    apply list_find_Some in Hfind as (Hx%list_elem_of_lookup_2 & Hid & _).
    by apply (NoDup_fmap_eq GetID _ x it
                (wf_unique _ Hwf (firstWordInitial r) (secondWordIndex r))).
  - destruct (tryParseItemIdentifier _) as [r|]; [|done].
    destruct (list_find _ _) as [[n x]|] eqn:Hfind; [|done].
    intros [= ->].
    apply list_find_Some in Hfind as (Hx%list_elem_of_lookup_2 & _).
    apply elem_of_enumerate; eauto.
Qed.

Lemma StronglySorted_bind {A B} (R : B → B → Prop) (S : A → A → Prop)
    (f : A → list B) (l : list A) :
  StronglySorted S l →
  (∀ x, x ∈ l → StronglySorted R (f x)) →
  (∀ x y a b, S x y → a ∈ f x → b ∈ f y → R a b) →
  StronglySorted R (l ≫= f).
Proof.
  intros Hl Hf HR. induction Hl as [|x l Hl IH Hx]; csimpl; [constructor|].
  apply StronglySorted_app_2.
  - intros a b Ha (y & Hb & Hy)%list_elem_of_bind.
    rewrite Forall_forall in Hx. by apply (HR x y); [apply Hx|..].
  - apply Hf. left.
  - apply IH. intros y Hy. apply Hf. by right.
Qed.

Lemma StronglySorted_all {A} (R : A → A → Prop) (l : list A) :
  (∀ a b, a ∈ l → b ∈ l → R a b) → StronglySorted R l.
Proof.
  induction l as [|x l IH]; intros HR; constructor.
  - apply IH. intros a b Ha Hb. apply HR; by right.
  - apply Forall_forall. intros b Hb. apply HR; [left|by right].
Qed.

Lemma letters_ascending :
  StronglySorted (λ a b, (N_of_ascii a < N_of_ascii b)%N) letters.
Proof. apply (bool_decide_unpack _). by vm_compute. Qed.

Lemma indices_ascending : StronglySorted lt (seq 0 26).
Proof. apply (bool_decide_unpack _). by vm_compute. Qed.

Lemma enumerate_sorted ds :
  well_formed ds → StronglySorted address_le (enumerate ds).
Proof.
  intros Hwf. rewrite enumerate_by_address by done.
  apply (StronglySorted_bind _ _ _ _ letters_ascending).
  - intros key _.
    apply (StronglySorted_bind _ lt); [apply indices_ascending|..].
    + intros index _. apply StronglySorted_all. intros a b Ha Hb.
      eexists _, _. split_and!; [by apply (wf_placed _ Hwf)..|]. by right.
    + intros i j a b Hij Ha Hb.
      eexists _, _. split_and!; [by apply (wf_placed _ Hwf)..|].
      right. simpl. split; [done|lia].
  - intros k1 k2 a b Hk
      (i1 & Ha & _)%list_elem_of_bind (i2 & Hb & _)%list_elem_of_bind.
    eexists _, _. split_and!; [by apply (wf_placed _ Hwf)..|]. by left.
Qed.

(** C6. The enumeration of a reachable container is the chain of address
    [("A", 0)], then of [("A", 1)], and so on to [("A", 25)], then the chains of
    ["B"] in the same order, up to [("Z", 25)], each chain front to back; it
    holds no item twice, and holds exactly the items a lookup finds.  An
    addition that returns puts the item at the front of its chain.
    [operator<<] writes the items in this order, one per line.  After adding
    "Beta Zed", "Alpha Young", "Alpha Apple" the order is "Alpha Apple",
    "Alpha Young", "Beta Zed"; after adding "Alpha Young" then "Alpha Yellow"
    their chain holds "Alpha Yellow" before "Alpha Young". *)
Theorem enumeration_order :
  (∀ ds, reachable ds →
     enumerate ds = (key ← letters; index ← seq 0 26; chain_at ds key index)
     ∧ StronglySorted address_le (enumerate ds)
     ∧ NoDup (enumerate ds)
     ∧ (∀ it, it ∈ enumerate ds ↔ GetItem ds (GetID it) = Yields (Some it))
     ∧ (∀ itemToAdd ds',
          operator_add ds itemToAdd = Yields (Normal ds') →
          ∃ r, tryParseItemIdentifier (GetID itemToAdd) = Some r
               ∧ chain_at ds' (firstWordInitial r) (secondWordIndex r)
                 = itemToAdd
                   :: chain_at ds (firstWordInitial r) (secondWordIndex r))
     ∧ (∀ out, DataStructure_output out ds = out +:+ lines (enumerate ds)))
  ∧ letters = list_ascii_of_string "ABCDEFGHIJKLMNOPQRSTUVWXYZ"
  ∧ enumerate (after [Add beta_zed; Add alpha_young; Add alpha_apple])
    = [alpha_apple; alpha_young; beta_zed]
  ∧ DataStructure_output EmptyString
      (after [Add beta_zed; Add alpha_young; Add alpha_apple])
    = ("Alpha Apple" +:+ endl +:+ "Alpha Young" +:+ endl
       +:+ "Beta Zed" +:+ endl)
  ∧ chain_at (after [Add alpha_young; Add alpha_yellow]) "A" 24
    = [alpha_yellow; alpha_young]
  ∧ enumerate (after [Add alpha_young; Add alpha_yellow])
    = [alpha_yellow; alpha_young].
Proof.
  split_and!; try reflexivity.
  intros ds Hwf%reachable_well_formed. split_and!.
  - by apply enumerate_by_address.
  - by apply enumerate_sorted.
  - apply (NoDup_fmap_1 GetID). by apply NoDup_identifiers.
  - intros it. by apply GetItem_stored.
  - intros itemToAdd ds' Hadd.
    destruct (operator_add_Normal _ _ _ Hwf Hadd) as (r & Hr & _ & ->).
    exists r. split; [done|]. apply chain_at_with_chain_eq; [done|].
    apply (tryParseItemIdentifier_index_bound _ _ Hr).
  - intros out. apply DataStructure_output_enumerate.
Qed.

Lemma enumeration_order_witness :
  reachable one_item
  ∧ operator_add one_item alpha_young
    = Yields (Normal (after [Add cafe_noir; Add alpha_young]))
  ∧ StronglySorted address_le (enumerate one_item)
  ∧ ∃ r, tryParseItemIdentifier (GetID alpha_young) = Some r
         ∧ chain_at (after [Add cafe_noir; Add alpha_young])
             (firstWordInitial r) (secondWordIndex r)
           = alpha_young
             :: chain_at one_item (firstWordInitial r) (secondWordIndex r).
Proof.
  split_and!; [exact reachable_one_item|reflexivity|..].
  - apply (proj1 enumeration_order one_item reachable_one_item).
  - apply (proj1 enumeration_order one_item reachable_one_item). reflexivity.
Defined.

(** ** Lookup *)

(** C7. On a reachable container [GetItem] has defined behaviour and returns
    a pointer or [nullptr], never an exception; being [const], it has no
    effect on the container.  It returns [nullptr] for a malformed
    identifier and when the first-level key has no bucket; otherwise it
    returns the first item of the addressed chain whose identifier equals
    the one asked for, or [nullptr] when the chain has none. *)
Theorem lookup_contract (ds : DataStructure) (id : option string) :
  reachable ds →
  ∃ result,
    GetItem ds id = Yields result
    ∧ (invalid_identifier id → result = None)
    ∧ (∀ r, tryParseItemIdentifier id = Some r →
            mBuckets ds !! firstWordInitial r = None → result = None)
    ∧ (∀ r (bucket : Bucket),
         tryParseItemIdentifier id = Some r →
         mBuckets ds !! firstWordInitial r = Some bucket →
         ∃ itemList,
           bucket !! secondWordIndex r = Some itemList
           ∧ match result with
             | Some it =>
                 ∃ l1 l2, itemList = l1 ++ it :: l2 ∧ GetID it = id
                          ∧ Forall (λ x, GetID x ≠ id) l1
             | None => Forall (λ x, GetID x ≠ id) itemList
             end).
Proof.
  intros Hwf%reachable_well_formed. rewrite GetItem_eq by done.
  eexists. split; [done|]. split_and!.
  - by intros ->%tryParseItemIdentifier_None.
  - intros r -> Hb. by rewrite chain_at_no_bucket.
  - intros r bucket Hr Hb. rewrite Hr.
    exists (chain_at ds (firstWordInitial r) (secondWordIndex r)). split.
    + apply chain_at_bucket; [done|].
      destruct (wf_bucket _ Hwf _ _ Hb) as [_ ->].
      apply (tryParseItemIdentifier_index_bound _ _ Hr).
    + destruct (list_find _ _) as [[n it]|] eqn:Hfind; simpl.
      * apply list_find_identifier_Some in Hfind
          as (l1 & l2 & Hchain & _ & Hid & _ & Hl1).
        by exists l1, l2.
      * by apply list_find_None in Hfind.
Qed.

Lemma lookup_contract_witness :
  reachable one_item
  ∧ GetItem one_item (Some "Cafe Noir"%string) = Yields (Some cafe_noir)
  ∧ invalid_identifier (Some "cafe noir"%string)
  ∧ (∃ result, GetItem one_item (Some "cafe noir"%string) = Yields result
               ∧ result = None)
  ∧ ∃ (bucket : Bucket) itemList l1 l2,
      mBuckets one_item !! "C"%char = Some bucket
      ∧ bucket !! 13%nat = Some itemList
      ∧ itemList = l1 ++ cafe_noir :: l2
      ∧ Forall (λ x, GetID x ≠ Some "Cafe Noir"%string) l1.
Proof.
  assert (invalid_identifier (Some "cafe noir"%string)) as Hinvalid.
  { by apply tryParseItemIdentifier_None. }
  split_and!; [exact reachable_one_item|reflexivity|exact Hinvalid| |].
  - destruct (lookup_contract one_item (Some "cafe noir"%string)
                reachable_one_item) as (result & Hget & Hnone & _).
    exists result. split; [done|]. by apply Hnone.
  - destruct (lookup_contract one_item (Some "Cafe Noir"%string)
                reachable_one_item) as (result & Hget & _ & _ & Hfound).
    change (Yields (Some cafe_noir) = Yields result) in Hget.
    injection Hget as <-.
    destruct (mBuckets one_item !! "C"%char) as [bucket|] eqn:Hbucket;
      [|by vm_compute in Hbucket].
    destruct (Hfound {| firstWordInitial := "C"; secondWordIndex := 13 |}
                bucket eq_refl Hbucket)
      as (itemList & Hchain & l1 & l2 & Hsplit & _ & Hl1).
    by exists bucket, itemList, l1, l2.
Defined.

(** ** Removal *)

(** C8. On a reachable container, removing the identifier of a stored item
    returns normally, and a removal that returns normally has taken exactly
    one item out of the addressed chain, the one with that identifier: the
    items before and after it keep their order, every other chain is what
    it was, every other bucket is untouched, and the enumeration has lost
    that one item and nothing else. *)
Theorem remove_frame (ds : DataStructure) :
  reachable ds →
  (∀ it, it ∈ enumerate ds →
     ∃ ds', operator_sub ds (GetID it) = Yields (Normal ds'))
  ∧ (∀ id ds',
       operator_sub ds id = Yields (Normal ds') →
       ∃ r l1 it l2,
         tryParseItemIdentifier id = Some r
         ∧ GetID it = id
         ∧ chain_at ds (firstWordInitial r) (secondWordIndex r)
           = l1 ++ it :: l2
         ∧ chain_at ds' (firstWordInitial r) (secondWordIndex r) = l1 ++ l2
         ∧ (id ∉ GetID <$> l1 ++ l2)
         ∧ (∀ key index,
              (key, index) ≠ (firstWordInitial r, secondWordIndex r) →
              chain_at ds' key index = chain_at ds key index)
         ∧ (∀ key, key ≠ firstWordInitial r →
                   mBuckets ds' !! key = mBuckets ds !! key)
         ∧ (∃ before after,
              enumerate ds = before ++ it :: after
              ∧ enumerate ds' = before ++ after)
         ∧ (id ∉ GetID <$> enumerate ds')).
Proof.
  intros Hwf%reachable_well_formed. split.
  - intros it (r & Hr & Hit)%elem_of_enumerate_placed; [|done].
    rewrite operator_sub_eq, Hr by done. cbv zeta.
    destruct (list_find_elem_of (λ x, GetID x = GetID it) _ it Hit eq_refl)
      as [[n x] ->]. eauto.
  - intros id ds' Hsub.
    pose proof (operator_sub_well_formed _ _ _ Hwf Hsub) as Hwf'.
    destruct (operator_sub_Normal _ _ _ Hwf Hsub)
      as (r & l1 & it & l2 & Hr & Hchain & Hid & Hgone & ->).
    pose proof (tryParseItemIdentifier_index_bound _ _ Hr) as Hi.
    pose proof (tryParseItemIdentifier_key_letter _ _ Hr) as Hkey.
    simpl in Hwf'.
    exists r, l1, it, l2. split_and!; try done.
    + by apply chain_at_with_chain_eq.
    + intros key index Hne. by apply chain_at_with_chain_ne.
    + intros key Hne. unfold with_chain. simpl. by rewrite lookup_insert_ne.
    + destruct (enumerate_with_chain ds (firstWordInitial r)
        (secondWordIndex r) (l1 ++ l2)) as (before & after & Hb & Ha);
        try done.
      exists (before ++ l1), (l2 ++ after). rewrite Hb, Ha, Hchain.
      by rewrite <-!(assoc_L (++)).
    + intros (x & Hx & Hin)%list_elem_of_fmap.
      apply elem_of_enumerate_placed in Hin as (r' & Hr' & Hin); [|done].
      rewrite <-Hx, Hr in Hr'. injection Hr' as <-.
      rewrite chain_at_with_chain_eq in Hin by done.
      apply Hgone. rewrite Hx. apply list_elem_of_fmap. eauto.
Qed.

Lemma remove_frame_witness :
  reachable four_items
  ∧ chain_at four_items "A" 24 = [alpha_yak; alpha_yellow; alpha_young]
  ∧ chain_at four_items "B" 25 = [beta_zed]
  ∧ alpha_yellow ∈ enumerate four_items
  ∧ (∃ ds', operator_sub four_items (GetID alpha_yellow)
            = Yields (Normal ds'))
  ∧ operator_sub four_items (Some "Alpha Yellow"%string)
    = Yields (Normal yellow_removed)
  ∧ chain_at yellow_removed "A" 24 = [alpha_yak; alpha_young]
  ∧ ∃ r l1 it l2,
      tryParseItemIdentifier (Some "Alpha Yellow"%string) = Some r
      ∧ GetID it = Some "Alpha Yellow"%string
      ∧ chain_at four_items (firstWordInitial r) (secondWordIndex r)
        = l1 ++ it :: l2
      ∧ chain_at yellow_removed (firstWordInitial r) (secondWordIndex r)
        = l1 ++ l2
      ∧ (Some "Alpha Yellow"%string ∉ GetID <$> l1 ++ l2)
      ∧ (∀ key index,
           (key, index) ≠ (firstWordInitial r, secondWordIndex r) →
           chain_at yellow_removed key index = chain_at four_items key index)
      ∧ (∀ key, key ≠ firstWordInitial r →
                mBuckets yellow_removed !! key = mBuckets four_items !! key)
      ∧ (∃ before after,
           enumerate four_items = before ++ it :: after
           ∧ enumerate yellow_removed = before ++ after)
      ∧ (Some "Alpha Yellow"%string ∉ GetID <$> enumerate yellow_removed).
Proof.
  assert (alpha_yellow ∈ enumerate four_items) as Hstored.
  { change (alpha_yellow ∈ [alpha_yak; alpha_yellow; alpha_young; beta_zed]).
    apply list_elem_of_further, list_elem_of_here. }
  split_and!; [apply reachable_after|reflexivity|reflexivity|exact Hstored
              | |reflexivity|reflexivity|].
  - exact (proj1 (remove_frame four_items (reachable_after _))
             alpha_yellow Hstored).
  - exact (proj2 (remove_frame four_items (reachable_after _))
             (Some "Alpha Yellow"%string) yellow_removed eq_refl).
Defined.

(** ** Buckets stay *)

Lemma call_keeps_buckets ds c r key :
  well_formed ds → call ds c = Yields r →
  is_Some (mBuckets ds !! key) → is_Some (mBuckets (state_of r) !! key).
Proof.
  intros Hwf Hcall Hkey. destruct c as [itemToAdd|id], r as [ds'|what ds'];
    simpl in *.
  - destruct (operator_add_Normal _ _ _ Hwf Hcall) as (r & _ & _ & ->).
    by apply with_chain_keys.
  - by destruct (operator_add_Throws _ _ _ _ Hwf Hcall) as [-> _].
  - destruct (operator_sub_Normal _ _ _ Hwf Hcall)
      as (r & l1 & it & l2 & _ & _ & _ & _ & ->).
    by apply with_chain_keys.
  - by destruct (operator_sub_Throws _ _ _ _ Hwf Hcall) as [-> _].
Qed.

Lemma run_keeps_buckets calls t key :
  reachable (container t) → is_Some (mBuckets (container t) !! key) →
  ∃ t', run calls t = Yields t'
        ∧ is_Some (mBuckets (container t') !! key).
Proof.
  revert t. induction calls as [|c calls IH]; intros t Hreach Hkey; simpl.
  - eauto.
  - unfold tally_call.
    pose proof (reachable_well_formed _ Hreach) as Hwf.
    destruct (call_defined (container t) c Hwf) as [r Hr]. rewrite Hr. simpl.
    pose proof (reachable_call _ _ _ Hreach Hr) as Hreach'.
    pose proof (call_keeps_buckets _ _ _ _ Hwf Hr Hkey) as Hkey'.
    apply IH; by destruct r, c.
Qed.

(** C9. A removal that returns normally leaves the same first-level keys in
    the map as before it, each with a bucket of 26 chains, also when the
    chain it emptied was the last one of its bucket with an item.  A key that
    has a bucket keeps one through every later sequence of calls.  After
    adding "Cafe Noir" and removing it again the bucket of ["C"] is there,
    with 26 empty chains. *)
Theorem removal_never_prunes :
  (∀ ds id ds',
     reachable ds → operator_sub ds id = Yields (Normal ds') →
     (∀ key, is_Some (mBuckets ds' !! key) ↔ is_Some (mBuckets ds !! key))
     ∧ (∀ key (bucket : Bucket),
          mBuckets ds' !! key = Some bucket → length bucket = 26%nat))
  ∧ (∀ ds calls key,
       reachable ds → is_Some (mBuckets ds !! key) →
       ∃ t, run calls {| container := ds; added := 0; removed := 0 |}
            = Yields t
            ∧ is_Some (mBuckets (container t) !! key))
  ∧ mBuckets (after [Add cafe_noir; Remove (Some "Cafe Noir"%string)])
      !! "C"%char
    = Some (replicate 26 [])
  ∧ enumerate (after [Add cafe_noir; Remove (Some "Cafe Noir"%string)]) = [].
Proof.
  split_and!; try reflexivity.
  - intros ds id ds' Hwf%reachable_well_formed Hsub.
    pose proof (operator_sub_well_formed _ _ _ Hwf Hsub) as Hwf'.
    simpl in Hwf'. split.
    + intros key. split;
        [|exact (call_keeps_buckets ds (Remove id) (Normal ds') key Hwf Hsub)].
      destruct (operator_sub_Normal _ _ _ Hwf Hsub)
        as (r & l1 & it & l2 & _ & Hchain & _ & _ & ->).
      unfold with_chain. simpl.
      destruct (decide (key = firstWordInitial r)) as [->|Hne].
      * intros _. unfold chain_at in Hchain.
        destruct (mBuckets ds !! firstWordInitial r); [done|].
        by destruct l1.
      * by rewrite lookup_insert_ne.
    + intros key bucket Hb. by destruct (wf_bucket _ Hwf' _ _ Hb).
  - intros ds calls key Hreach Hkey. by apply run_keeps_buckets.
Qed.

Lemma removal_never_prunes_witness :
  reachable one_item
  ∧ operator_sub one_item (Some "Cafe Noir"%string)
    = Yields (Normal (after [Add cafe_noir; Remove (Some "Cafe Noir"%string)]))
  ∧ ∀ key,
      is_Some (mBuckets
                 (after [Add cafe_noir; Remove (Some "Cafe Noir"%string)])
               !! key)
      ↔ is_Some (mBuckets one_item !! key).
Proof.
  split_and!; [exact reachable_one_item|reflexivity|].
  apply (proj1 removal_never_prunes one_item (Some "Cafe Noir"%string)
           _ reachable_one_item eq_refl).
Defined.

(** ** Placement *)

Lemma well_formed_placed ds : well_formed ds → placed ds.
Proof.
  intros Hwf key bucket index itemList it Hb Hl Hit.
  apply (wf_placed _ Hwf). unfold chain_at. by rewrite Hb; simpl; rewrite Hl.
Qed.

(** C10. In every reachable container each stored item has an identifier the
    parser accepts, so neither null nor empty, and sits in the chain of the
    bucket that its own identifier parses to.  The new container has the
    property and every call, returning or throwing, keeps it.  Hence an item
    is stored exactly when it is in the one chain its identifier selects. *)
Theorem placement_invariant :
  placed DataStructure_new
  ∧ (∀ ds, reachable ds →
       placed ds
       ∧ (∀ c, ∃ r, call ds c = Yields r ∧ placed (state_of r))
       ∧ (∀ it, it ∈ enumerate ds →
            ¬ invalid_identifier (GetID it)
            ∧ GetID it ≠ None ∧ GetID it ≠ Some EmptyString)
       ∧ (∀ it, it ∈ enumerate ds ↔
            ∃ r (bucket : Bucket) itemList,
              tryParseItemIdentifier (GetID it) = Some r
              ∧ mBuckets ds !! firstWordInitial r = Some bucket
              ∧ bucket !! secondWordIndex r = Some itemList
              ∧ it ∈ itemList)).
Proof.
  split; [apply well_formed_placed, well_formed_new|].
  intros ds Hreach. pose proof (reachable_well_formed _ Hreach) as Hwf.
  split_and!.
  - by apply well_formed_placed.
  - intros c. destruct (call_defined ds c Hwf) as [r Hr]. exists r.
    split; [done|]. apply well_formed_placed. by apply (call_well_formed ds c).
  - intros it (r & Hr & _)%elem_of_enumerate_placed; [|done]. split_and!.
    + rewrite <-tryParseItemIdentifier_None. congruence.
    + by destruct (GetID it).
    + by destruct (GetID it) as [[]|].
  - intros it. rewrite elem_of_enumerate_placed by done. split.
    + intros (r & Hr & Hit). unfold chain_at in Hit.
      destruct (mBuckets ds !! firstWordInitial r) as [bucket|] eqn:Hb;
        [|by apply elem_of_nil in Hit].
      simpl in Hit.
      destruct (bucket !! secondWordIndex r) as [itemList|] eqn:Hl;
        [|by apply elem_of_nil in Hit].
      by exists r, bucket, itemList.
    + intros (r & bucket & itemList & Hr & Hb & Hl & Hit). exists r.
      split; [done|]. unfold chain_at. by rewrite Hb; simpl; rewrite Hl.
Qed.

Lemma placement_invariant_witness :
  reachable one_item
  ∧ cafe_noir ∈ enumerate one_item
  ∧ placed one_item
  ∧ GetID cafe_noir ≠ None.
Proof.
  split_and!;
    [exact reachable_one_item|vm_compute; apply list_elem_of_here|..].
  - apply (proj2 placement_invariant one_item reachable_one_item).
  - apply (proj2 placement_invariant one_item reachable_one_item).
    vm_compute. apply list_elem_of_here.
Defined.

(** * Further properties of the code *)

(** ** Stored identifiers *)

Lemma stored_identifier_parses ds id :
  well_formed ds → id ∈ GetID <$> enumerate ds →
  ∃ r, tryParseItemIdentifier id = Some r
       ∧ id ∈ GetID <$> chain_at ds (firstWordInitial r) (secondWordIndex r).
Proof.
  intros Hwf (it & -> & Hit)%list_elem_of_fmap.
  apply elem_of_enumerate_placed in Hit as (r & Hr & Hit); [|done].
  exists r. split; [done|]. apply list_elem_of_fmap. eauto.
Qed.

Lemma chain_identifier_stored ds key index id :
  well_formed ds → id ∈ GetID <$> chain_at ds key index →
  id ∈ GetID <$> enumerate ds.
Proof.
  intros Hwf (it & -> & Hit)%list_elem_of_fmap.
  apply list_elem_of_fmap. exists it. split; [done|].
  apply elem_of_enumerate; eauto.
Qed.

Lemma stored_identifier_valid ds id :
  well_formed ds → id ∈ GetID <$> enumerate ds → ¬ invalid_identifier id.
Proof.
  intros Hwf (r & Hr & _)%stored_identifier_parses; [|done].
  rewrite <-tryParseItemIdentifier_None. congruence.
Qed.

Lemma list_find_skip {A} (P : A → Prop) `{∀ x, Decision (P x)}
    (l1 l2 : list A) (x : A) :
  ¬ P x → snd <$> list_find P (l1 ++ x :: l2) = snd <$> list_find P (l1 ++ l2).
Proof.
  intros Hx. induction l1 as [|a l1 IH]; simpl.
  - rewrite decide_False by done. by destruct (list_find P l2) as [[]|].
  - destruct (decide (P a)); [done|].
    destruct (list_find P (l1 ++ x :: l2)) as [[]|],
             (list_find P (l1 ++ l2)) as [[]|]; simpl in *; congruence.
Qed.

(** ** Defined behaviour *)

(** X1. No call on a reachable container has undefined behaviour: neither
    [operator+=], [operator-=] nor [GetItem] hands a null pointer to
    [strcmp] or subscripts a bucket past its 26 chains, whatever the
    argument, and so for any sequence of calls.  A container with a stored
    null identifier, which no sequence of calls produces, shows what is
    avoided: a lookup in its chain is undefined. *)
Theorem calls_have_defined_behaviour :
  (∀ ds, reachable ds →
     (∀ itemToAdd, ∃ r, operator_add ds itemToAdd = Yields r)
     ∧ (∀ id, ∃ r, operator_sub ds id = Yields r)
     ∧ (∀ id, ∃ result, GetItem ds id = Yields result)
     ∧ (∀ calls, ∃ t,
          run calls {| container := ds; added := 0; removed := 0 |}
          = Yields t))
  ∧ GetItem null_identifier_stored (Some "Cafe Noir"%string) = Undefined
  ∧ operator_sub null_identifier_stored (Some "Cafe Noir"%string) = Undefined
  ∧ operator_add null_identifier_stored cafe_noir = Undefined
  ∧ ¬ reachable null_identifier_stored.
Proof.
  split_and!; try reflexivity.
  - intros ds Hreach. pose proof (reachable_well_formed _ Hreach) as Hwf.
    split_and!.
    + intros itemToAdd. apply (call_defined ds (Add itemToAdd) Hwf).
    + intros id. apply (call_defined ds (Remove id) Hwf).
    + intros id. rewrite GetItem_eq by done. eauto.
    + intros calls.
      destruct (run_reachable calls
                  {| container := ds; added := 0; removed := 0 |} Hreach)
        as (t & Hrun & _).
      eauto.
  - intros Hwf%reachable_well_formed.
    destruct (call_defined null_identifier_stored (Add cafe_noir) Hwf)
      as [r Hr].
    discriminate Hr.
Qed.

Lemma calls_have_defined_behaviour_witness :
  reachable one_item
  ∧ ∀ id, ∃ r, operator_sub one_item id = Yields r.
Proof.
  split; [exact reachable_one_item|].
  apply (proj1 calls_have_defined_behaviour one_item reachable_one_item).
Defined.

(** ** The outcomes of an addition and of a removal *)

Lemma operator_add_outcomes (ds : DataStructure) (itemToAdd : Item) :
  well_formed ds →
  (operator_add ds itemToAdd = Yields (Throws "Invalid ID" ds)
   ↔ invalid_identifier (GetID itemToAdd))
  ∧ (operator_add ds itemToAdd = Yields (Throws "Item already exists" ds)
     ↔ GetID itemToAdd ∈ GetID <$> enumerate ds)
  ∧ ((∃ ds', operator_add ds itemToAdd = Yields (Normal ds'))
     ↔ ¬ invalid_identifier (GetID itemToAdd)
       ∧ (GetID itemToAdd ∉ GetID <$> enumerate ds)).
Proof.
  intros Hwf. rewrite operator_add_eq by done.
  rewrite <-tryParseItemIdentifier_None.
  destruct (tryParseItemIdentifier (GetID itemToAdd)) as [r|] eqn:Hr.
  - cbv zeta. case_decide as Hin.
    + pose proof (chain_identifier_stored _ _ _ _ Hwf Hin) as Hstored.
      split_and!.
      * split; [intros [=]|done].
      * done.
      * split; [by intros [ds' [=]]|by intros [_ ?]].
    + assert (GetID itemToAdd ∉ GetID <$> enumerate ds) as Hfresh.
      { intros (r' & Hr' & Hin')%stored_identifier_parses; [|done].
        rewrite Hr in Hr'. by injection Hr' as <-. }
      split_and!.
      * split; [intros [=]|done].
      * split; [intros [=]|done].
      * split; [done|eauto].
  - assert (GetID itemToAdd ∉ GetID <$> enumerate ds) as Hfresh.
    { intros (r' & Hr' & _)%stored_identifier_parses; [|done]. congruence. }
    split_and!.
    + done.
    + split; [intros [=]|done].
    + split; [by intros [ds' [=]]|by intros [? _]].
Qed.

(** X2. What [operator+=] does to a reachable container is decided by the
    item's identifier alone: it throws "Invalid ID" exactly when the
    identifier is malformed, throws "Item already exists" exactly when an
    item with that identifier is stored, and returns normally exactly when
    the identifier is well formed and not stored. *)
Theorem addition_outcomes (ds : DataStructure) (itemToAdd : Item) :
  reachable ds →
  (operator_add ds itemToAdd = Yields (Throws "Invalid ID" ds)
   ↔ invalid_identifier (GetID itemToAdd))
  ∧ (operator_add ds itemToAdd = Yields (Throws "Item already exists" ds)
     ↔ GetID itemToAdd ∈ GetID <$> enumerate ds)
  ∧ ((∃ ds', operator_add ds itemToAdd = Yields (Normal ds'))
     ↔ ¬ invalid_identifier (GetID itemToAdd)
       ∧ (GetID itemToAdd ∉ GetID <$> enumerate ds)).
Proof.
  intros Hwf%reachable_well_formed. by apply operator_add_outcomes.
Qed.

Lemma addition_outcomes_witness :
  reachable one_item
  ∧ (operator_add one_item (item_named "cafe noir")
     = Yields (Throws "Invalid ID" one_item)
     ↔ invalid_identifier (Some "cafe noir"%string)).
Proof.
  split; [exact reachable_one_item|].
  apply (addition_outcomes one_item (item_named "cafe noir")
           reachable_one_item).
Defined.

Lemma operator_sub_outcomes (ds : DataStructure) (id : option string) :
  well_formed ds →
  (operator_sub ds id = Yields (Throws "Invalid ID" ds)
   ↔ invalid_identifier id)
  ∧ ((∃ ds', operator_sub ds id = Yields (Normal ds'))
     ↔ id ∈ GetID <$> enumerate ds)
  ∧ (operator_sub ds id = Yields (Throws "Item not found" ds)
     ↔ ¬ invalid_identifier id ∧ (id ∉ GetID <$> enumerate ds)).
Proof.
  intros Hwf. rewrite operator_sub_eq by done.
  rewrite <-tryParseItemIdentifier_None.
  destruct (tryParseItemIdentifier id) as [r|] eqn:Hr.
  - cbv zeta. destruct (list_find _ _) as [[n it]|] eqn:Hfind.
    + assert (id ∈ GetID <$> enumerate ds) as Hstored.
      { apply (chain_identifier_stored _ (firstWordInitial r)
                 (secondWordIndex r)); [done|].
        apply dec_stable. rewrite <-list_find_identifier_None. congruence. }
      split_and!.
      * split; [intros [=]|done].
      * split; [done|eauto].
      * split; [intros [=]|by intros [_ ?]].
    + apply list_find_identifier_None in Hfind.
      assert (id ∉ GetID <$> enumerate ds) as Hfresh.
      { intros (r' & Hr' & Hin')%stored_identifier_parses; [|done].
        rewrite Hr in Hr'. by injection Hr' as <-. }
      split_and!.
      * split; [intros [=]|done].
      * split; [by intros [ds' [=]]|done].
      * done.
  - assert (id ∉ GetID <$> enumerate ds) as Hfresh.
    { intros (r' & Hr' & _)%stored_identifier_parses; [|done]. congruence. }
    split_and!.
    + done.
    + split; [by intros [ds' [=]]|done].
    + split; [intros [=]|by intros [? _]].
Qed.

(** X3. What [operator-=] does to a reachable container is decided the same
    way: it throws "Invalid ID" exactly when the identifier is malformed
    (the null pointer included), returns normally exactly when an item with
    the identifier is stored, and throws "Item not found" exactly when the
    identifier is well formed and not stored, whether or not its bucket
    exists. *)
Theorem removal_outcomes (ds : DataStructure) (id : option string) :
  reachable ds →
  (operator_sub ds id = Yields (Throws "Invalid ID" ds)
   ↔ invalid_identifier id)
  ∧ ((∃ ds', operator_sub ds id = Yields (Normal ds'))
     ↔ id ∈ GetID <$> enumerate ds)
  ∧ (operator_sub ds id = Yields (Throws "Item not found" ds)
     ↔ ¬ invalid_identifier id ∧ (id ∉ GetID <$> enumerate ds)).
Proof.
  intros Hwf%reachable_well_formed. by apply operator_sub_outcomes.
Qed.

Lemma removal_outcomes_witness :
  reachable one_item
  ∧ ((∃ ds', operator_sub one_item (Some "Cafe Noir"%string)
             = Yields (Normal ds'))
     ↔ Some "Cafe Noir"%string ∈ GetID <$> enumerate one_item).
Proof.
  split; [exact reachable_one_item|].
  apply (removal_outcomes one_item (Some "Cafe Noir"%string)
           reachable_one_item).
Defined.

(** X4. Removing the same identifier twice from a reachable container:
    when the first removal returns, the second throws "Item not found" and
    leaves the container as the first one left it; the container holds one
    item fewer than before the first removal, not two, and a lookup of the
    identifier returns [nullptr]. *)
Theorem second_removal_fails (ds ds' : DataStructure) (id : option string) :
  reachable ds →
  operator_sub ds id = Yields (Normal ds') →
  operator_sub ds' id = Yields (Throws "Item not found" ds')
  ∧ GetItem ds' id = Yields None
  ∧ length (enumerate ds) = S (length (enumerate ds')).
Proof.
  intros Hwf%reachable_well_formed Hsub.
  pose proof (operator_sub_well_formed _ _ _ Hwf Hsub) as Hwf'.
  simpl in Hwf'.
  destruct (operator_sub_enumerate _ _ _ Hwf Hsub)
    as (before & it & after & _ & Hb & Ha).
  assert (length (enumerate ds) = S (length (enumerate ds'))) as Hlen.
  { rewrite Hb, Ha, !length_app. simpl. lia. }
  destruct (operator_sub_Normal _ _ _ Hwf Hsub)
    as (r & l1 & x & l2 & Hr & Hchain & Hid & Hgone & Hds').
  pose proof (tryParseItemIdentifier_index_bound _ _ Hr) as Hi.
  assert (chain_at ds' (firstWordInitial r) (secondWordIndex r) = l1 ++ l2)
    as Hchain'.
  { rewrite Hds'. by apply chain_at_with_chain_eq. }
  apply list_find_identifier_None in Hgone.
  split_and!; try done.
  - rewrite operator_sub_eq, Hr by done. cbv zeta. by rewrite Hchain', Hgone.
  - rewrite GetItem_eq, Hr by done. by rewrite Hchain', Hgone.
Qed.

Lemma second_removal_fails_witness :
  reachable one_item
  ∧ operator_sub one_item (Some "Cafe Noir"%string)
    = Yields (Normal (after [Add cafe_noir; Remove (Some "Cafe Noir"%string)]))
  ∧ operator_sub (after [Add cafe_noir; Remove (Some "Cafe Noir"%string)])
      (Some "Cafe Noir"%string)
    = Yields (Throws "Item not found"
                (after [Add cafe_noir; Remove (Some "Cafe Noir"%string)])).
Proof.
  split_and!; [exact reachable_one_item|reflexivity|].
  apply (second_removal_fails one_item _ (Some "Cafe Noir"%string)
           reachable_one_item eq_refl).
Defined.

(** ** Lookup *)

Lemma GetItem_exact (ds : DataStructure) (id : option string) :
  well_formed ds →
  (∀ it, GetItem ds id = Yields (Some it)
         ↔ it ∈ enumerate ds ∧ GetID it = id)
  ∧ (GetItem ds id = Yields None ↔ id ∉ GetID <$> enumerate ds).
Proof.
  intros Hwf.
  assert (∀ it, GetItem ds id = Yields (Some it)
                ↔ it ∈ enumerate ds ∧ GetID it = id) as Hsome.
  { intros it. split.
    - intros Hget. assert (GetID it = id) as Hid.
      { rewrite GetItem_eq in Hget by done.
        destruct (tryParseItemIdentifier id) as [r|]; [|done].
        destruct (list_find _ _) as [[n x]|] eqn:Hfind; [|done].
        injection Hget as ->. by apply list_find_Some in Hfind as (_ & ? & _). }
      split; [|done]. apply GetItem_stored; [done|]. by rewrite Hid.
    - intros [Hit <-]. by apply GetItem_stored. }
  split; [done|]. split.
  - intros Hnone (it & -> & Hit)%list_elem_of_fmap.
    assert (GetItem ds (GetID it) = Yields (Some it)) as Hget
      by by apply Hsome.
    congruence.
  - intros Hfresh. rewrite GetItem_eq by done.
    destruct (tryParseItemIdentifier id) as [r|] eqn:Hr; [|done].
    destruct (list_find _ _) as [[n x]|] eqn:Hfind; [|done].
    exfalso. apply Hfresh.
    apply (chain_identifier_stored _ (firstWordInitial r) (secondWordIndex r));
      [done|].
    apply dec_stable. rewrite <-list_find_identifier_None. congruence.
Qed.

(** X5. On a reachable container [GetItem] answers for the whole container,
    not just for one chain: it returns an item exactly when that item is
    stored and has the identifier asked for, and returns [nullptr] exactly
    when no stored item has the identifier. *)
Theorem lookup_exact (ds : DataStructure) (id : option string) :
  reachable ds →
  (∀ it, GetItem ds id = Yields (Some it)
         ↔ it ∈ enumerate ds ∧ GetID it = id)
  ∧ (GetItem ds id = Yields None ↔ id ∉ GetID <$> enumerate ds).
Proof.
  intros Hwf%reachable_well_formed. by apply GetItem_exact.
Qed.

Lemma lookup_exact_witness :
  reachable one_item
  ∧ (GetItem one_item (Some "Cafe Latte"%string) = Yields None
     ↔ Some "Cafe Latte"%string ∉ GetID <$> enumerate one_item).
Proof.
  split; [exact reachable_one_item|].
  apply (lookup_exact one_item (Some "Cafe Latte"%string) reachable_one_item).
Defined.

Lemma GetItem_other_identifier (ds : DataStructure) :
  well_formed ds →
  (∀ itemToAdd ds',
     operator_add ds itemToAdd = Yields (Normal ds') →
     ∀ id, id ≠ GetID itemToAdd → GetItem ds' id = GetItem ds id)
  ∧ (∀ id ds',
       operator_sub ds id = Yields (Normal ds') →
       ∀ id', id' ≠ id → GetItem ds' id' = GetItem ds id').
Proof.
  intros Hwf. split.
  - intros itemToAdd ds' Hadd id Hne.
    pose proof (operator_add_well_formed _ _ _ Hwf Hadd) as Hwf'.
    simpl in Hwf'. rewrite !GetItem_eq by done.
    destruct (tryParseItemIdentifier id) as [r'|]; [|done].
    destruct (operator_add_Normal _ _ _ Hwf Hadd) as (r & Hr & _ & ->).
    pose proof (tryParseItemIdentifier_index_bound _ _ Hr) as Hi.
    destruct (decide ((firstWordInitial r', secondWordIndex r')
                      = (firstWordInitial r, secondWordIndex r)))
      as [[= -> ->]|Hother].
    + rewrite chain_at_with_chain_eq by done. f_equal.
      apply (list_find_skip (λ it, GetID it = id) [] _ itemToAdd). congruence.
    + by rewrite chain_at_with_chain_ne.
  - intros id ds' Hsub id' Hne.
    pose proof (operator_sub_well_formed _ _ _ Hwf Hsub) as Hwf'.
    simpl in Hwf'. rewrite !GetItem_eq by done.
    destruct (tryParseItemIdentifier id') as [r'|]; [|done].
    destruct (operator_sub_Normal _ _ _ Hwf Hsub)
      as (r & l1 & it & l2 & Hr & Hchain & Hid & _ & ->).
    pose proof (tryParseItemIdentifier_index_bound _ _ Hr) as Hi.
    destruct (decide ((firstWordInitial r', secondWordIndex r')
                      = (firstWordInitial r, secondWordIndex r)))
      as [[= -> ->]|Hother].
    + rewrite chain_at_with_chain_eq, Hchain by done. f_equal. symmetry.
      apply (list_find_skip (λ x, GetID x = id')). congruence.
    + by rewrite chain_at_with_chain_ne.
Qed.

(** X6. A call that changes the container changes the answer of [GetItem]
    for no identifier but its own: after an addition that returns, and after
    a removal that returns, every lookup of another identifier returns what
    it returned before. *)
Theorem other_lookups_unaffected (ds : DataStructure) :
  reachable ds →
  (∀ itemToAdd ds',
     operator_add ds itemToAdd = Yields (Normal ds') →
     ∀ id, id ≠ GetID itemToAdd → GetItem ds' id = GetItem ds id)
  ∧ (∀ id ds',
       operator_sub ds id = Yields (Normal ds') →
       ∀ id', id' ≠ id → GetItem ds' id' = GetItem ds id').
Proof.
  intros Hwf%reachable_well_formed. by apply GetItem_other_identifier.
Qed.

Lemma other_lookups_unaffected_witness :
  reachable one_item
  ∧ operator_add one_item alpha_young
    = Yields (Normal (after [Add cafe_noir; Add alpha_young]))
  ∧ ∀ id, id ≠ GetID alpha_young →
          GetItem (after [Add cafe_noir; Add alpha_young]) id
          = GetItem one_item id.
Proof.
  split_and!; [exact reachable_one_item|reflexivity|].
  apply (proj1 (other_lookups_unaffected one_item reachable_one_item)
           alpha_young _ eq_refl).
Defined.

(** ** The effect of an addition *)

(** X7. An addition that returns changes one chain and nothing else: the
    item is the new front of the chain its identifier addresses, every other
    chain is what it was, every other bucket is untouched, the bucket of the
    item's first-level key exists afterwards, and the enumeration is the old
    one with the item put in at one place. *)
Theorem addition_frame (ds ds' : DataStructure) (itemToAdd : Item) :
  reachable ds →
  operator_add ds itemToAdd = Yields (Normal ds') →
  ∃ r,
    tryParseItemIdentifier (GetID itemToAdd) = Some r
    ∧ chain_at ds' (firstWordInitial r) (secondWordIndex r)
      = itemToAdd :: chain_at ds (firstWordInitial r) (secondWordIndex r)
    ∧ (∀ key index,
         (key, index) ≠ (firstWordInitial r, secondWordIndex r) →
         chain_at ds' key index = chain_at ds key index)
    ∧ (∀ key, key ≠ firstWordInitial r →
              mBuckets ds' !! key = mBuckets ds !! key)
    ∧ is_Some (mBuckets ds' !! firstWordInitial r)
    ∧ ∃ before after,
        enumerate ds = before ++ after
        ∧ enumerate ds' = before ++ itemToAdd :: after.
Proof.
  intros Hwf%reachable_well_formed Hadd.
  destruct (operator_add_enumerate _ _ _ Hwf Hadd) as (before & after & Hb & Ha).
  destruct (operator_add_Normal _ _ _ Hwf Hadd) as (r & Hr & _ & ->).
  pose proof (tryParseItemIdentifier_index_bound _ _ Hr) as Hi.
  exists r. split_and!; try done.
  - by apply chain_at_with_chain_eq.
  - intros key index Hne. by apply chain_at_with_chain_ne.
  - intros key Hne. unfold with_chain. simpl. by rewrite lookup_insert_ne.
  - unfold with_chain. simpl. by rewrite lookup_insert_eq.
  - by exists before, after.
Qed.

Lemma addition_frame_witness :
  reachable one_item
  ∧ operator_add one_item alpha_young
    = Yields (Normal (after [Add cafe_noir; Add alpha_young]))
  ∧ ∃ r, tryParseItemIdentifier (GetID alpha_young) = Some r
         ∧ ∀ key, key ≠ firstWordInitial r →
                  mBuckets (after [Add cafe_noir; Add alpha_young]) !! key
                  = mBuckets one_item !! key.
Proof.
  split_and!; [exact reachable_one_item|reflexivity|].
  destruct (addition_frame one_item _ alpha_young reachable_one_item eq_refl)
    as (r & Hr & _ & _ & Hkeys & _).
  by exists r.
Defined.

(** ** How additions and removals compose *)

Lemma with_chain_twice ds key index l l' :
  with_chain (with_chain ds key index l) key index l'
  = with_chain ds key index l'.
Proof.
  unfold with_chain. simpl. rewrite lookup_insert_eq. simpl.
  by rewrite insert_insert_eq, list_insert_insert_eq.
Qed.

Lemma with_chain_same ds key (bucket : Bucket) index :
  mBuckets ds !! key = Some bucket →
  with_chain ds key index (chain_at ds key index) = ds.
Proof.
  intros Hb. unfold with_chain. rewrite Hb. simpl.
  rewrite list_insert_id'; [|intros Hi; by apply chain_at_bucket].
  rewrite insert_id by done. by destruct ds.
Qed.

Lemma with_chain_commute ds key1 index1 l1 key2 index2 l2 :
  (key1, index1) ≠ (key2, index2) →
  with_chain (with_chain ds key1 index1 l1) key2 index2 l2
  = with_chain (with_chain ds key2 index2 l2) key1 index1 l1.
Proof.
  intros Hne. unfold with_chain. simpl. f_equal.
  destruct (decide (key1 = key2)) as [->|Hkey].
  - rewrite !lookup_insert_eq. simpl. rewrite !insert_insert_eq. f_equal.
    apply list_insert_insert_ne. congruence.
  - rewrite !lookup_insert_ne by done. by apply insert_insert_ne.
Qed.

Lemma chains_determine_the_rest ds1 ds2 :
  well_formed ds1 → well_formed ds2 →
  (∀ key index, chain_at ds2 key index = chain_at ds1 key index) →
  enumerate ds2 = enumerate ds1
  ∧ (∀ id, GetItem ds2 id = GetItem ds1 id)
  ∧ GetItemsNumber ds2 = GetItemsNumber ds1.
Proof.
  intros Hwf1 Hwf2 Hchains.
  assert (enumerate ds2 = enumerate ds1) as Henum.
  { rewrite !enumerate_by_address by done.
    apply Forall_bind_ext, Forall_forall. intros key _.
    apply Forall_bind_ext, Forall_forall. intros index _. apply Hchains. }
  split_and!; [done| |by apply GetItemsNumber_chains].
  intros id. rewrite !GetItem_eq by done.
  destruct (tryParseItemIdentifier id); [|done]. by rewrite Hchains.
Qed.

(** X8. Adding an item to a reachable container and removing its identifier
    again gives back every chain, hence the enumeration, the count and every
    lookup.  The container itself is the one before when the bucket of the
    item's first-level key existed; when the addition had to make that
    bucket, it stays behind with 26 empty chains and the container is a
    different one. *)
Theorem add_then_remove_restores (ds ds1 : DataStructure) (itemToAdd : Item) :
  reachable ds →
  operator_add ds itemToAdd = Yields (Normal ds1) →
  ∃ ds2 r,
    operator_sub ds1 (GetID itemToAdd) = Yields (Normal ds2)
    ∧ tryParseItemIdentifier (GetID itemToAdd) = Some r
    ∧ (∀ key index, chain_at ds2 key index = chain_at ds key index)
    ∧ enumerate ds2 = enumerate ds
    ∧ (∀ id, GetItem ds2 id = GetItem ds id)
    ∧ GetItemsNumber ds2 = GetItemsNumber ds
    ∧ (is_Some (mBuckets ds !! firstWordInitial r) → ds2 = ds)
    ∧ (mBuckets ds !! firstWordInitial r = None →
       mBuckets ds2 !! firstWordInitial r = Some (replicate 26 [])
       ∧ ds2 ≠ ds).
Proof.
  intros Hwf%reachable_well_formed Hadd.
  pose proof (operator_add_well_formed _ _ _ Hwf Hadd) as Hwf1.
  destruct (operator_add_Normal _ _ _ Hwf Hadd) as (r & Hr & Hfresh & ->).
  pose proof (tryParseItemIdentifier_index_bound _ _ Hr) as Hi.
  simpl in Hwf1.
  set (chain := chain_at ds (firstWordInitial r) (secondWordIndex r)) in *.
  assert (operator_sub
            (with_chain ds (firstWordInitial r) (secondWordIndex r)
               (itemToAdd :: chain)) (GetID itemToAdd)
          = Yields (Normal (with_chain ds (firstWordInitial r)
                              (secondWordIndex r) chain))) as Hsub.
  { rewrite operator_sub_eq, Hr by done. cbv zeta.
    rewrite chain_at_with_chain_eq by done. cbn [list_find].
    rewrite decide_True by done. simpl. by rewrite with_chain_twice. }
  pose proof (operator_sub_well_formed _ _ _ Hwf1 Hsub) as Hwf2.
  simpl in Hwf2.
  assert (∀ key index,
    chain_at (with_chain ds (firstWordInitial r) (secondWordIndex r) chain)
      key index = chain_at ds key index) as Hchains.
  { intros key index.
    destruct (decide ((key, index)
                      = (firstWordInitial r, secondWordIndex r)))
      as [[= -> ->]|Hne].
    - by rewrite chain_at_with_chain_eq.
    - by rewrite chain_at_with_chain_ne. }
  destruct (chains_determine_the_rest _ _ Hwf Hwf2 Hchains)
    as (Henum & Hget & Hcount).
  eexists _, r. split_and!; try done.
  - intros [bucket Hb]. by apply (with_chain_same _ _ bucket).
  - intros Hb.
    assert (mBuckets (with_chain ds (firstWordInitial r) (secondWordIndex r)
                        chain) !! firstWordInitial r
            = Some (replicate 26 [])) as Hb2.
    { unfold with_chain. simpl. rewrite lookup_insert_eq, Hb. simpl.
      subst chain. rewrite chain_at_no_bucket by done. f_equal.
      apply list_insert_id.
      exact (lookup_replicate_2 26 (@nil Item) (secondWordIndex r) Hi). }
    split; [done|]. intros Heq. rewrite Heq in Hb2. congruence.
Qed.

Lemma add_then_remove_restores_witness :
  reachable DataStructure_new
  ∧ operator_add DataStructure_new cafe_noir = Yields (Normal one_item)
  ∧ ∃ ds2 r,
      operator_sub one_item (GetID cafe_noir) = Yields (Normal ds2)
      ∧ tryParseItemIdentifier (GetID cafe_noir) = Some r
      ∧ enumerate ds2 = enumerate DataStructure_new
      ∧ (mBuckets DataStructure_new !! firstWordInitial r = None →
         mBuckets ds2 !! firstWordInitial r = Some (replicate 26 [])
         ∧ ds2 ≠ DataStructure_new).
Proof.
  split_and!; [exact reachable_new|reflexivity|].
  destruct (add_then_remove_restores DataStructure_new one_item cafe_noir
              reachable_new eq_refl)
    as (ds2 & r & Hsub & Hr & _ & Henum & _ & _ & _ & Hnew).
  by exists ds2, r.
Defined.

(** X9. Removing a stored item from a reachable container and adding it
    again moves it to the front of its chain: both calls return, the chain
    [l1 ++ it :: l2] becomes [it :: l1 ++ l2], every other chain is what it
    was, and when the item was at the front already the container is the one
    before. *)
Theorem remove_then_add_moves_to_front (ds : DataStructure) (it : Item) :
  reachable ds →
  it ∈ enumerate ds →
  ∃ ds1 ds2 r l1 l2,
    operator_sub ds (GetID it) = Yields (Normal ds1)
    ∧ operator_add ds1 it = Yields (Normal ds2)
    ∧ tryParseItemIdentifier (GetID it) = Some r
    ∧ chain_at ds (firstWordInitial r) (secondWordIndex r) = l1 ++ it :: l2
    ∧ chain_at ds2 (firstWordInitial r) (secondWordIndex r)
      = it :: l1 ++ l2
    ∧ (∀ key index,
         (key, index) ≠ (firstWordInitial r, secondWordIndex r) →
         chain_at ds2 key index = chain_at ds key index)
    ∧ (l1 = [] → ds2 = ds).
Proof.
  intros Hwf%reachable_well_formed Hit.
  apply elem_of_enumerate_placed in Hit as (r & Hr & Hit); [|done].
  pose proof (tryParseItemIdentifier_index_bound _ _ Hr) as Hi.
  assert (∃ ds1, operator_sub ds (GetID it) = Yields (Normal ds1))
    as [ds1 Hsub].
  { rewrite operator_sub_eq, Hr by done. cbv zeta.
    destruct (list_find_elem_of (λ x, GetID x = GetID it) _ it Hit eq_refl)
      as [[n x] ->]. eauto. }
  pose proof (operator_sub_well_formed _ _ _ Hwf Hsub) as Hwf1.
  simpl in Hwf1.
  destruct (operator_sub_Normal _ _ _ Hwf Hsub)
    as (r' & l1 & x & l2 & Hr' & Hchain & Hid & Hgone & Hds1).
  rewrite Hr in Hr'. injection Hr' as <-.
  assert (x = it) as ->.
  { apply (NoDup_fmap_eq GetID
             (chain_at ds (firstWordInitial r) (secondWordIndex r)));
      [apply Hwf| |done..].
    rewrite Hchain. apply elem_of_app. right. left. }
  assert (chain_at ds1 (firstWordInitial r) (secondWordIndex r) = l1 ++ l2)
    as Hchain1.
  { rewrite Hds1. by apply chain_at_with_chain_eq. }
  assert (operator_add ds1 it
          = Yields (Normal (with_chain ds (firstWordInitial r)
                              (secondWordIndex r) (it :: l1 ++ l2))))
    as Hadd.
  { rewrite operator_add_eq, Hr by done. cbv zeta. rewrite Hchain1.
    rewrite decide_False by done. by rewrite Hds1, with_chain_twice. }
  eexists ds1, _, r, l1, l2. split_and!; try done.
  - by apply chain_at_with_chain_eq.
  - intros key index Hne. by apply chain_at_with_chain_ne.
  - intros ->. simpl in *. rewrite <-Hchain.
    assert (is_Some (mBuckets ds !! firstWordInitial r)) as [bucket Hb].
    { unfold chain_at in Hchain.
      by destruct (mBuckets ds !! firstWordInitial r). }
    by apply (with_chain_same _ _ bucket).
Qed.

Lemma remove_then_add_moves_to_front_witness :
  reachable (after [Add alpha_young; Add alpha_yellow])
  ∧ alpha_young ∈ enumerate (after [Add alpha_young; Add alpha_yellow])
  ∧ ∃ ds1 ds2 r l1 l2,
      operator_sub (after [Add alpha_young; Add alpha_yellow])
        (GetID alpha_young) = Yields (Normal ds1)
      ∧ operator_add ds1 alpha_young = Yields (Normal ds2)
      ∧ tryParseItemIdentifier (GetID alpha_young) = Some r
      ∧ chain_at (after [Add alpha_young; Add alpha_yellow])
          (firstWordInitial r) (secondWordIndex r) = l1 ++ alpha_young :: l2
      ∧ chain_at ds2 (firstWordInitial r) (secondWordIndex r)
        = alpha_young :: l1 ++ l2.
Proof.
  assert (reachable (after [Add alpha_young; Add alpha_yellow])) as Hreach.
  { apply (reachable_call (after [Add alpha_young]) (Add alpha_yellow)
             (Normal (after [Add alpha_young; Add alpha_yellow]))); [|done].
    exact (reachable_call DataStructure_new (Add alpha_young)
             (Normal (after [Add alpha_young])) reachable_new eq_refl). }
  assert (alpha_young ∈ enumerate (after [Add alpha_young; Add alpha_yellow]))
    as Hin.
  { vm_compute. right. left. }
  split_and!; [done..|].
  destruct (remove_then_add_moves_to_front _ alpha_young Hreach Hin)
    as (ds1 & ds2 & r & l1 & l2 & Hsub & Hadd & Hr & Hc & Hc2 & _).
  by exists ds1, ds2, r, l1, l2.
Defined.

(** X10. Two additions that return in one order return in the other order
    too.  When the two items have different addresses the resulting
    container is the same; when they share an address only the order of the
    two at the front of their chain differs, the later one first. *)
Theorem additions_in_either_order (ds ds1 ds2 : DataStructure) (a b : Item) :
  reachable ds →
  operator_add ds a = Yields (Normal ds1) →
  operator_add ds1 b = Yields (Normal ds2) →
  ∃ ds1' ds2',
    operator_add ds b = Yields (Normal ds1')
    ∧ operator_add ds1' a = Yields (Normal ds2')
    ∧ (tryParseItemIdentifier (GetID a) ≠ tryParseItemIdentifier (GetID b) →
       ds2' = ds2)
    ∧ (∀ r, tryParseItemIdentifier (GetID a) = Some r →
            tryParseItemIdentifier (GetID b) = Some r →
            chain_at ds2 (firstWordInitial r) (secondWordIndex r)
            = b :: a :: chain_at ds (firstWordInitial r) (secondWordIndex r)
            ∧ chain_at ds2' (firstWordInitial r) (secondWordIndex r)
              = a :: b
                :: chain_at ds (firstWordInitial r) (secondWordIndex r)).
Proof.
  intros Hwf%reachable_well_formed Hadd1 Hadd2.
  pose proof (operator_add_well_formed _ _ _ Hwf Hadd1) as Hwf1.
  simpl in Hwf1.
  destruct (operator_add_Normal _ _ _ Hwf Hadd1) as (ra & Hra & Ha & Hds1).
  destruct (operator_add_Normal _ _ _ Hwf1 Hadd2) as (rb & Hrb & Hb & Hds2).
  pose proof (tryParseItemIdentifier_index_bound _ _ Hra) as Hia.
  pose proof (tryParseItemIdentifier_index_bound _ _ Hrb) as Hib.
  destruct (decide (ra = rb)) as [<-|Hne].
  - rewrite Hds1 in Hb, Hds2. rewrite chain_at_with_chain_eq in Hb, Hds2 by done.
    rewrite fmap_cons, not_elem_of_cons in Hb. destruct Hb as [Hba Hb].
    assert (operator_add ds b
            = Yields (Normal (with_chain ds (firstWordInitial ra)
                (secondWordIndex ra)
                (b :: chain_at ds (firstWordInitial ra) (secondWordIndex ra)))))
      as Hadd1'.
    { rewrite operator_add_eq, Hrb by done. cbv zeta.
      by rewrite decide_False. }
    pose proof (operator_add_well_formed _ _ _ Hwf Hadd1') as Hwf1'.
    simpl in Hwf1'.
    eexists _, _. split; [exact Hadd1'|]. split.
    { rewrite operator_add_eq, Hra by done. cbv zeta.
      rewrite chain_at_with_chain_eq by done.
      rewrite decide_False; [done|].
      rewrite fmap_cons, not_elem_of_cons. split; [congruence|done]. }
    split; [congruence|].
    intros r Hr _. rewrite Hra in Hr. injection Hr as <-.
    rewrite Hds2, with_chain_twice. by rewrite !chain_at_with_chain_eq.
  - assert ((firstWordInitial ra, secondWordIndex ra)
            ≠ (firstWordInitial rb, secondWordIndex rb)) as Haddr.
    { intros [= Hk Hi]. apply Hne. destruct ra, rb. simpl in *. congruence. }
    rewrite Hds1 in Hb, Hds2.
    rewrite chain_at_with_chain_ne in Hb, Hds2 by congruence.
    assert (operator_add ds b
            = Yields (Normal (with_chain ds (firstWordInitial rb)
                (secondWordIndex rb)
                (b :: chain_at ds (firstWordInitial rb) (secondWordIndex rb)))))
      as Hadd1'.
    { rewrite operator_add_eq, Hrb by done. cbv zeta.
      by rewrite decide_False. }
    pose proof (operator_add_well_formed _ _ _ Hwf Hadd1') as Hwf1'.
    simpl in Hwf1'.
    eexists _, _. split; [exact Hadd1'|]. split.
    { rewrite operator_add_eq, Hra by done. cbv zeta.
      rewrite chain_at_with_chain_ne by done.
      by rewrite decide_False. }
    split.
    + intros _. rewrite Hds2. by apply with_chain_commute.
    + intros r Hr Hr'. congruence.
Qed.

Lemma additions_in_either_order_witness :
  reachable DataStructure_new
  ∧ operator_add DataStructure_new cafe_noir
    = Yields (Normal (after [Add cafe_noir]))
  ∧ operator_add (after [Add cafe_noir]) alpha_young
    = Yields (Normal (after [Add cafe_noir; Add alpha_young]))
  ∧ ∃ ds1' ds2',
      operator_add DataStructure_new alpha_young = Yields (Normal ds1')
      ∧ operator_add ds1' cafe_noir = Yields (Normal ds2')
      ∧ (tryParseItemIdentifier (GetID cafe_noir)
         ≠ tryParseItemIdentifier (GetID alpha_young) →
         ds2' = after [Add cafe_noir; Add alpha_young]).
Proof.
  split_and!; [exact reachable_new|reflexivity|reflexivity|].
  destruct (additions_in_either_order DataStructure_new _ _ cafe_noir
              alpha_young reachable_new eq_refl eq_refl)
    as (ds1' & ds2' & H1 & H2 & Hsame & _).
  by exists ds1', ds2'.
Defined.

(** ** The parser and what follows an identifier's two initials *)

Lemma strchr_append (s p t : string) (c : ascii) :
  strchr s c = Some p → p ≠ EmptyString → strchr (s +:+ t) c = Some (p +:+ t).
Proof.
  induction s as [|a s IH]; simpl.
  - destruct (Ascii.eqb c NUL); [|done]. by intros [= <-].
  - change (String a s +:+ t) with (String a (s +:+ t)). simpl.
    destruct (Ascii.eqb a c); [by intros [= <-]|]. apply IH.
Qed.

(** X11. The parser reads the first character, finds the first space, reads
    the character after it, and looks no further: text appended to an
    identifier it accepts changes nothing, the identifier is accepted again
    with the same two keys, whatever the text - more spaces, lowercase
    letters or anything else. *)
Theorem parser_ignores_what_follows (s t : string) (r : ParsedItemIdentifier) :
  tryParseItemIdentifier (Some s) = Some r →
  tryParseItemIdentifier (Some (s +:+ t)) = Some r.
Proof.
  destruct s as [|c s]; [done|].
  change (String c s +:+ t) with (String c (s +:+ t)).
  unfold tryParseItemIdentifier.
  destruct (outside_valid_letters c); [done|].
  change (String c (s +:+ t)) with (String c s +:+ t).
  destruct (strchr (String c s) WORD_SEPARATOR) as [p|] eqn:Hp; [|done].
  destruct (char_after p) as [d|] eqn:Hd; [|done].
  assert (p ≠ EmptyString) as Hne by by destruct p.
  rewrite (strchr_append _ _ t _ Hp Hne).
  destruct p as [|x [|y p]]; try done. injection Hd as ->.
  change (char_after (String x (String d (p +:+ t)))) with (Some d).
  done.
Qed.

Lemma parser_ignores_what_follows_witness :
  tryParseItemIdentifier (Some "Cafe Noir"%string)
  = Some {| firstWordInitial := "C"; secondWordIndex := 13 |}
  ∧ tryParseItemIdentifier (Some ("Cafe Noir" +:+ " au lait 2%"))
    = Some {| firstWordInitial := "C"; secondWordIndex := 13 |}.
Proof.
  split; [reflexivity|].
  apply (parser_ignores_what_follows "Cafe Noir" " au lait 2%"). reflexivity.
Defined.

(** ** Items *)

(** X12. [Item::operator==] is an equivalence relation: reflexive, symmetric
    and transitive, null identifiers included.  It holds exactly when the
    two identifiers are the same string or both null, and it ignores the
    code and the time. *)
Theorem Item_equal_is_equivalence :
  (∀ a, Item_equal a a = true)
  ∧ (∀ a b, Item_equal a b = Item_equal b a)
  ∧ (∀ a b c, Item_equal a b = true → Item_equal b c = true →
              Item_equal a c = true)
  ∧ (∀ a b, Item_equal a b = true ↔ pID a = pID b)
  ∧ (∀ id code1 time1 code2 time2,
       Item_equal {| pID := id; Code := code1; pTime := time1 |}
                  {| pID := id; Code := code2; pTime := time2 |} = true).
Proof.
  split_and!.
  - intros a. by apply Item_equal_identifier.
  - intros a b. destruct (Item_equal a b) eqn:Hab, (Item_equal b a) eqn:Hba;
      try done.
    + apply Item_equal_identifier in Hab. symmetry in Hab.
      apply Item_equal_identifier in Hab. congruence.
    + apply Item_equal_identifier in Hba. symmetry in Hba.
      apply Item_equal_identifier in Hba. congruence.
  - intros a b c Hab%Item_equal_identifier Hbc%Item_equal_identifier.
    apply Item_equal_identifier. congruence.
  - intros a b. apply Item_equal_identifier.
  - intros id code1 time1 code2 time2. by apply Item_equal_identifier.
Qed.

Lemma Item_construct_Returns provided it :
  Item_construct provided = Returns it →
  provided = Some it ∧ is_Some (pID it).
Proof.
  unfold Item_construct, fetchItemFromProvider.
  destruct provided as [fetched|]; [|done].
  destruct (pID fetched) as [id|] eqn:Hid; [|done].
  intros [= <-]. simpl. rewrite Hid. simpl. split; [|by eexists].
  f_equal. destruct fetched as [? ? []]; simpl in *; by subst.
Qed.

(** X13. A constructor of [Item] either throws "Failed to retrieve item from
    provider", exactly when the provider gave back a null pointer or an item
    whose identifier is null, or builds an item with the identifier, code
    and time the provider gave.  So every item that comes from a
    constructor, from the copy constructor or from an assignment between
    such items has a non-null identifier: [operator<<] writes that
    identifier for it and never "(null)", and a copy or an assigned item is
    the same as its source. *)
Theorem constructed_items_have_identifiers :
  (∀ provided,
     match Item_construct provided with
     | Returns it => provided = Some it ∧ is_Some (GetID it)
     | Raises what =>
         what = "Failed to retrieve item from provider"%string
         ∧ (provided = None ∨ ∃ fetched, provided = Some fetched
                                          ∧ pID fetched = None)
     end)
  ∧ (∀ it, constructible it →
       ∃ id, GetID it = Some id
             ∧ ∀ outputStream, Item_output outputStream it = outputStream +:+ id)
  ∧ (∀ sourceItem, Item_copy sourceItem = sourceItem)
  ∧ (∀ this otherItem same_object,
       (same_object = true → this = otherItem) →
       Item_assign this otherItem same_object = otherItem).
Proof.
  assert (∀ this otherItem same_object,
    (same_object = true → this = otherItem) →
    Item_assign this otherItem same_object = otherItem) as Hassign.
  { intros this otherItem [] Hsame; simpl; [by apply Hsame|].
    apply Item_copy_id. }
  split_and!.
  - intros provided.
    destruct (Item_construct provided) as [it|what] eqn:Hc.
    + by apply Item_construct_Returns.
    + unfold Item_construct, fetchItemFromProvider in Hc.
      destruct provided as [fetched|]; [|injection Hc as <-; auto].
      destruct (pID fetched) eqn:Hid; [done|]. injection Hc as <-.
      split; [done|]. right. by exists fetched.
  - assert (∀ it, constructible it → is_Some (GetID it)) as Hsome.
    { induction 1 as [provided it Hc|sourceItem _ IH
                     |this otherItem same_object _ _ _ IH Hsame].
      - by apply Item_construct_Returns in Hc as [_ ?].
      - by rewrite Item_copy_id.
      - by rewrite Hassign. }
    intros it [id Hid]%Hsome. exists id. split; [done|].
    intros outputStream. unfold Item_output, GetID in *. by rewrite Hid.
  - apply Item_copy_id.
  - done.
Qed.

Lemma constructed_items_have_identifiers_witness :
  Item_construct (Some cafe_noir) = Returns cafe_noir
  ∧ constructible (Item_assign alpha_young (Item_copy cafe_noir) false)
  ∧ ∃ id, GetID (Item_assign alpha_young (Item_copy cafe_noir) false) = Some id
          ∧ ∀ outputStream,
              Item_output outputStream
                (Item_assign alpha_young (Item_copy cafe_noir) false)
              = outputStream +:+ id.
Proof.
  assert (constructible (Item_assign alpha_young (Item_copy cafe_noir) false))
    as Hbuilt.
  { apply constructible_assign; [|apply constructible_copy|done].
    - by apply (constructible_new (Some alpha_young)).
    - by apply (constructible_new (Some cafe_noir)). }
  split_and!; [reflexivity|exact Hbuilt|].
  exact (proj1 (proj2 constructed_items_have_identifiers) _ Hbuilt).
Defined.

(** ** What is printed *)

Lemma string_app_empty_l (a : string) : EmptyString +:+ a = a.
Proof. reflexivity. Qed.

Lemma lines_identifiers (l : list Item) (ids : list string) :
  GetID <$> l = Some <$> ids → lines l = identifier_lines ids.
Proof.
  revert ids. induction l as [|it l IH]; intros [|id ids]; try done.
  rewrite !fmap_cons. intros [= Hid Hrest]. simpl.
  rewrite (IH ids Hrest). unfold Item_line, Item_output, GetID in *.
  rewrite Hid. by rewrite <-string_app_assoc.
Qed.

(** X14. [operator<<] on a reachable container writes, for each stored item
    in the order of the enumeration, the item's identifier followed by
    [endl]: every stored item has an identifier, so the "(null)" an item
    without one would get is never written in its place.  What was on the
    stream before stays in front, so printing to a stream is printing to an
    empty one and appending. *)
Theorem output_lists_identifiers :
  (∀ ds, reachable ds →
     ∃ ids,
       GetID <$> enumerate ds = Some <$> ids
       ∧ length ids = length (enumerate ds)
       ∧ ∀ outputStream,
           DataStructure_output outputStream ds
           = outputStream +:+ identifier_lines ids)
  ∧ (∀ ds outputStream,
       DataStructure_output outputStream ds
       = outputStream +:+ DataStructure_output EmptyString ds)
  ∧ (∀ outputStream it,
       GetID it = None →
       Item_output outputStream it = outputStream +:+ "(null)").
Proof.
  split_and!.
  - intros ds Hwf%reachable_well_formed.
    assert (∃ ids, GetID <$> enumerate ds = Some <$> ids) as [ids Hids].
    { assert (Forall (λ it, is_Some (GetID it)) (enumerate ds)) as Hall.
      { apply Forall_forall.
        intros it (r & Hr & _)%elem_of_enumerate_placed; [|done].
        by destruct (tryParseItemIdentifier_Some_pointer _ _ Hr)
          as (s & -> & _). }
      induction Hall as [|it l [id Hid] _ [ids IH]]; [by exists []|].
      exists (id :: ids). by rewrite !fmap_cons, Hid, IH. }
    exists ids. split_and!; [done| |].
    + apply (f_equal length) in Hids. by rewrite !length_fmap in Hids.
    + intros outputStream. rewrite DataStructure_output_enumerate.
      by rewrite (lines_identifiers _ _ Hids).
  - intros ds outputStream.
    rewrite (DataStructure_output_enumerate outputStream).
    rewrite (DataStructure_output_enumerate EmptyString).
    by rewrite string_app_empty_l.
  - intros outputStream it Hid. unfold Item_output, GetID in *.
    by rewrite Hid.
Qed.

Lemma output_lists_identifiers_witness :
  reachable one_item
  ∧ ∃ ids, GetID <$> enumerate one_item = Some <$> ids
           ∧ length ids = length (enumerate one_item)
           ∧ ∀ outputStream,
               DataStructure_output outputStream one_item
               = outputStream +:+ identifier_lines ids.
Proof.
  split; [exact reachable_one_item|].
  apply (proj1 output_lists_identifiers one_item reachable_one_item).
Defined.

(** ** A container without items *)

Lemma reachable_emptied :
  reachable (after [Add cafe_noir; Remove (Some "Cafe Noir"%string)]).
Proof.
  exact (reachable_call one_item (Remove (Some "Cafe Noir"%string))
           (Normal (after [Add cafe_noir; Remove (Some "Cafe Noir"%string)]))
           reachable_one_item eq_refl).
Qed.

(** X15. A reachable container that holds no item, new or emptied by
    removals, behaves the same whether or not buckets are left in it: the
    count is 0, every lookup returns [nullptr], every removal throws
    "Invalid ID" or "Item not found" and changes nothing, printing writes
    nothing, and adding any item with a well-formed identifier returns and
    leaves that item as the only one. *)
Theorem container_without_items (ds : DataStructure) :
  reachable ds →
  enumerate ds = [] →
  GetItemsNumber ds = Yields 0
  ∧ (∀ id, GetItem ds id = Yields None)
  ∧ (∀ id, ∃ what,
       operator_sub ds id = Yields (Throws what ds)
       ∧ (what = "Invalid ID"%string ∨ what = "Item not found"%string))
  ∧ (∀ outputStream, DataStructure_output outputStream ds = outputStream)
  ∧ (∀ itemToAdd,
       ¬ invalid_identifier (GetID itemToAdd) →
       ∃ ds', operator_add ds itemToAdd = Yields (Normal ds')
              ∧ enumerate ds' = [itemToAdd]).
Proof.
  intros Hwf%reachable_well_formed Hempty.
  assert (∀ key index, chain_at ds key index = []) as Hchains.
  { intros key index.
    destruct (chain_at ds key index) as [|it l] eqn:Hchain; [done|].
    assert (it ∈ enumerate ds) as Hit.
    { apply elem_of_enumerate; [done|]. exists key, index.
      rewrite Hchain. left. }
    rewrite Hempty in Hit. by apply elem_of_nil in Hit. }
  split_and!.
  - rewrite GetItemsNumber_exact; by rewrite Hempty.
  - intros id. rewrite GetItem_eq by done.
    destruct (tryParseItemIdentifier id); [|done]. by rewrite Hchains.
  - intros id. rewrite operator_sub_eq by done.
    destruct (tryParseItemIdentifier id); [|eauto]. cbv zeta.
    rewrite Hchains. simpl. eauto.
  - intros outputStream. rewrite DataStructure_output_enumerate, Hempty.
    apply string_app_empty_r.
  - intros itemToAdd Hvalid. rewrite <-tryParseItemIdentifier_None in Hvalid.
    assert (∃ ds', operator_add ds itemToAdd = Yields (Normal ds'))
      as [ds' Hadd].
    { rewrite operator_add_eq by done.
      destruct (tryParseItemIdentifier (GetID itemToAdd)); [|done].
      cbv zeta. rewrite Hchains. simpl. eauto. }
    exists ds'. split; [done|].
    destruct (operator_add_enumerate _ _ _ Hwf Hadd)
      as (before & after & Hb & ->).
    rewrite Hempty in Hb. symmetry in Hb.
    by apply app_eq_nil in Hb as [-> ->].
Qed.

Lemma container_without_items_witness :
  reachable (after [Add cafe_noir; Remove (Some "Cafe Noir"%string)])
  ∧ enumerate (after [Add cafe_noir; Remove (Some "Cafe Noir"%string)]) = []
  ∧ is_Some (mBuckets (after [Add cafe_noir; Remove (Some "Cafe Noir"%string)])
             !! "C"%char)
  ∧ ∀ id, GetItem (after [Add cafe_noir; Remove (Some "Cafe Noir"%string)]) id
          = Yields None.
Proof.
  split_and!; [exact reachable_emptied|reflexivity|by eexists|].
  apply (container_without_items _ reachable_emptied eq_refl).
Defined.

(** ** The shape of the map *)

Lemma letters_lookup (d : ascii) :
  uppercase_letter d →
  letters !! N.to_nat (N_of_ascii d - N_of_ascii "A") = Some d.
Proof.
  intros Hd%elem_of_letters. revert d Hd. apply Forall_forall.
  apply (bool_decide_unpack _). by vm_compute.
Qed.

(** X16. The map of a reachable container has buckets for uppercase letters
    only, so at most 26 of them, each with exactly 26 chains; a chain holds
    only items whose identifier starts with the bucket's letter and whose
    second word starts with the letter of the chain's index. *)
Theorem buckets_are_letters (ds : DataStructure) :
  reachable ds →
  (∀ key (bucket : Bucket),
     mBuckets ds !! key = Some bucket →
     key ∈ letters ∧ length bucket = 26%nat)
  ∧ (size (mBuckets ds) ≤ 26)%nat
  ∧ (∀ key (bucket : Bucket) index itemList it,
       mBuckets ds !! key = Some bucket →
       bucket !! index = Some itemList → it ∈ itemList →
       ∃ s n d,
         GetID it = Some s
         ∧ String.get 0 s = Some key
         ∧ first_occurrence " " s n ∧ String.get (S n) s = Some d
         ∧ letters !! index = Some d).
Proof.
  intros Hwf%reachable_well_formed. split_and!.
  - intros key bucket Hb. destruct (wf_bucket _ Hwf _ _ Hb) as [Hkey Hlen].
    split; [by apply elem_of_letters|done].
  - assert (dom (mBuckets ds) ⊆ (list_to_set letters : gset ascii)) as Hdom.
    { intros key [bucket Hb]%elem_of_dom.
      apply elem_of_list_to_set, elem_of_letters.
      by destruct (wf_bucket _ Hwf _ _ Hb). }
    apply subseteq_size in Hdom.
    by rewrite size_dom, size_list_to_set in Hdom by apply NoDup_letters.
  - intros key bucket index itemList it Hb Hl Hit.
    pose proof (well_formed_placed _ Hwf _ _ _ _ _ Hb Hl Hit) as Hr.
    apply tryParseItemIdentifier_Some in Hr
      as (s & c & n & d & Hs & Hc & _ & Hn & Hd & Hup & [= -> ->]).
    exists s, n, d. split_and!; try done. by apply letters_lookup.
Qed.

Lemma buckets_are_letters_witness :
  reachable one_item
  ∧ (size (mBuckets one_item) ≤ 26)%nat.
Proof.
  split; [exact reachable_one_item|].
  apply (buckets_are_letters one_item reachable_one_item).
Defined.

(** ** Lookups, additions and removals together *)

Lemma GetItem_null ds : well_formed ds → GetItem ds None = Yields None.
Proof. intros Hwf. by rewrite GetItem_eq. Qed.

Lemma GetItem_after_add ds itemToAdd ds' :
  well_formed ds → operator_add ds itemToAdd = Yields (Normal ds') →
  GetItem ds' (GetID itemToAdd) = Yields (Some itemToAdd).
Proof.
  intros Hwf Hadd.
  pose proof (operator_add_well_formed _ _ _ Hwf Hadd) as Hwf'.
  simpl in Hwf'. apply GetItem_exact; [done|]. split; [|done].
  destruct (operator_add_enumerate _ _ _ Hwf Hadd)
    as (before & after & _ & ->).
  apply elem_of_app. right. left.
Qed.

Lemma GetItem_after_sub ds id ds' :
  well_formed ds → operator_sub ds id = Yields (Normal ds') →
  GetItem ds' id = Yields None.
Proof.
  intros Hwf Hsub.
  pose proof (operator_sub_well_formed _ _ _ Hwf Hsub) as Hwf'.
  simpl in Hwf'.
  destruct (operator_sub_Normal _ _ _ Hwf Hsub)
    as (r & l1 & x & l2 & Hr & _ & _ & Hgone & ->).
  pose proof (tryParseItemIdentifier_index_bound _ _ Hr) as Hi.
  rewrite GetItem_eq, Hr by done. rewrite chain_at_with_chain_eq by done.
  apply list_find_identifier_None in Hgone. by rewrite Hgone.
Qed.

(** X17. On a reachable container a lookup tells what the two other calls
    will do with the same identifier: [operator-=] returns normally exactly
    when [GetItem] returns an item; [operator+=] throws "Item already
    exists" exactly when [GetItem] returns an item for the new item's
    identifier, and when [GetItem] returns [nullptr] it either adds the
    item or, the identifier being malformed, throws "Invalid ID". *)
Theorem lookup_foretells_the_call (ds : DataStructure) :
  reachable ds →
  (∀ id, (∃ it, GetItem ds id = Yields (Some it))
         ↔ ∃ ds', operator_sub ds id = Yields (Normal ds'))
  ∧ (∀ itemToAdd,
       (∃ it, GetItem ds (GetID itemToAdd) = Yields (Some it))
       ↔ operator_add ds itemToAdd = Yields (Throws "Item already exists" ds))
  ∧ (∀ itemToAdd,
       GetItem ds (GetID itemToAdd) = Yields None →
       (∃ ds', operator_add ds itemToAdd = Yields (Normal ds'))
       ∨ (operator_add ds itemToAdd = Yields (Throws "Invalid ID" ds)
          ∧ invalid_identifier (GetID itemToAdd))).
Proof.
  intros Hwf%reachable_well_formed.
  assert (∀ id, (∃ it, GetItem ds id = Yields (Some it))
                ↔ id ∈ GetID <$> enumerate ds) as Hfound.
  { intros id. rewrite list_elem_of_fmap. split.
    - intros [it Hget]. apply GetItem_exact in Hget as [Hit Hid]; [|done].
      by exists it.
    - intros (it & -> & Hit). exists it. by apply GetItem_exact. }
  split_and!.
  - intros id. rewrite Hfound. symmetry.
    apply (operator_sub_outcomes ds id Hwf).
  - intros itemToAdd. rewrite Hfound. symmetry.
    apply (operator_add_outcomes ds itemToAdd Hwf).
  - intros itemToAdd Hnone. apply GetItem_exact in Hnone; [|done].
    destruct (tryParseItemIdentifier (GetID itemToAdd)) as [r|] eqn:Hr.
    + left. apply (operator_add_outcomes ds itemToAdd Hwf). split; [|done].
      rewrite <-tryParseItemIdentifier_None. congruence.
    + right. apply tryParseItemIdentifier_None in Hr. split; [|done].
      by apply (operator_add_outcomes ds itemToAdd Hwf).
Qed.

Lemma lookup_foretells_the_call_witness :
  reachable one_item
  ∧ ((∃ it, GetItem one_item (Some "Cafe Noir"%string) = Yields (Some it))
     ↔ ∃ ds', operator_sub one_item (Some "Cafe Noir"%string)
              = Yields (Normal ds')).
Proof.
  split; [exact reachable_one_item|].
  apply (proj1 (lookup_foretells_the_call one_item reachable_one_item)).
Defined.

Lemma call_follows_model ds c r (m : gmap string Item) :
  well_formed ds → call ds c = Yields r →
  (∀ s, GetItem ds (Some s) = Yields (m !! s)) →
  ∀ s, GetItem (state_of r) (Some s) = Yields (model_call m c !! s).
Proof.
  intros Hwf Hcall Hm s.
  assert (∀ s, m !! s = None ↔ Some s ∉ GetID <$> enumerate ds) as Hnone.
  { intros s'. rewrite <-(proj2 (GetItem_exact ds (Some s') Hwf)), Hm.
    split; congruence. }
  destruct c as [itemToAdd|[s0|]]; cbn [call] in Hcall; cbn [model_call].
  - destruct (GetID itemToAdd) as [s0|] eqn:Hid.
    + destruct (tryParseItemIdentifier (Some s0)) as [r0|] eqn:Hr0.
      * destruct (m !! s0) as [x|] eqn:Hm0.
        -- assert (operator_add ds itemToAdd
                   = Yields (Throws "Item already exists" ds)) as Hthrow.
           { apply (operator_add_outcomes ds itemToAdd Hwf). rewrite Hid.
             apply dec_stable. rewrite <-Hnone. congruence. }
           rewrite Hthrow in Hcall. injection Hcall as <-. apply Hm.
        -- destruct (proj2 (proj2 (proj2
             (operator_add_outcomes ds itemToAdd Hwf)))) as [ds' Hadd].
           { rewrite Hid. split; [|by apply Hnone].
             rewrite <-tryParseItemIdentifier_None. congruence. }
           rewrite Hadd in Hcall. injection Hcall as <-. simpl.
           destruct (decide (s = s0)) as [->|Hne].
           ++ rewrite lookup_insert_eq, <-Hid.
              by apply (GetItem_after_add ds).
           ++ rewrite lookup_insert_ne by done. rewrite <-Hm.
              apply (proj1 (GetItem_other_identifier ds Hwf) itemToAdd ds' Hadd).
              rewrite Hid. congruence.
      * assert (operator_add ds itemToAdd = Yields (Throws "Invalid ID" ds))
          as Hthrow.
        { apply (operator_add_outcomes ds itemToAdd Hwf). rewrite Hid.
          by apply tryParseItemIdentifier_None. }
        rewrite Hthrow in Hcall. injection Hcall as <-. apply Hm.
    + assert (operator_add ds itemToAdd = Yields (Throws "Invalid ID" ds))
        as Hthrow.
      { apply (operator_add_outcomes ds itemToAdd Hwf). by rewrite Hid. }
      rewrite Hthrow in Hcall. injection Hcall as <-. apply Hm.
  - destruct r as [ds'|what ds'].
    + simpl. destruct (decide (s = s0)) as [->|Hne].
      * rewrite lookup_delete_eq. by apply (GetItem_after_sub ds).
      * rewrite lookup_delete_ne by done. rewrite <-Hm.
        apply (proj2 (GetItem_other_identifier ds Hwf) (Some s0) ds' Hcall).
        congruence.
    + destruct (operator_sub_Throws _ _ _ _ Hwf Hcall) as [-> _]. simpl.
      assert (m !! s0 = None) as Hm0.
      { apply Hnone. intros Hstored.
        apply (operator_sub_outcomes ds (Some s0) Hwf) in Hstored
          as [ds' Hsub]. congruence. }
      rewrite Hm. f_equal. destruct (decide (s = s0)) as [->|Hne].
      * by rewrite lookup_delete_eq.
      * by rewrite lookup_delete_ne.
  - destruct (operator_sub_outcomes ds None Hwf) as (Hinvalid & _).
    rewrite (proj2 Hinvalid I) in Hcall. injection Hcall as <-. apply Hm.
Qed.

Lemma run_follows_model calls :
  ∀ t (m : gmap string Item),
    reachable (container t) →
    (∀ s, GetItem (container t) (Some s) = Yields (m !! s)) →
    ∃ t', run calls t = Yields t'
          ∧ reachable (container t')
          ∧ ∀ s, GetItem (container t') (Some s)
                 = Yields (foldl model_call m calls !! s).
Proof.
  induction calls as [|c calls IH]; intros t m Hreach Hm; simpl.
  - eauto.
  - unfold tally_call.
    pose proof (reachable_well_formed _ Hreach) as Hwf.
    destruct (call_defined (container t) c Hwf) as [r Hr]. rewrite Hr. simpl.
    pose proof (reachable_call _ _ _ Hreach Hr) as Hreach'.
    pose proof (call_follows_model _ _ _ m Hwf Hr Hm) as Hm'.
    apply IH; by destruct r, c.
Qed.

(** X18. Through any sequence of calls on a new container, exceptions
    caught, the container answers lookups as a plain map from identifier to
    item would: an addition enters the item under its identifier unless the
    identifier is null, malformed or taken, a removal deletes the entry, and
    [GetItem] returns the entry or [nullptr].  The items stored are the
    entries of that map, and a null identifier is never found. *)
Theorem container_refines_map (calls : list Call) :
  ∃ t,
    run calls start = Yields t
    ∧ (∀ s, GetItem (container t) (Some s)
            = Yields (foldl model_call ∅ calls !! s))
    ∧ GetItem (container t) None = Yields None
    ∧ (∀ it, it ∈ enumerate (container t)
             ↔ ∃ s, GetID it = Some s
                    ∧ foldl model_call ∅ calls !! s = Some it).
Proof.
  destruct (run_follows_model calls start ∅ reachable_new)
    as (t & Hrun & Hwf%reachable_well_formed & Hm).
  { intros s. rewrite lookup_empty.
    change (container start) with DataStructure_new.
    rewrite GetItem_eq by apply well_formed_new.
    destruct (tryParseItemIdentifier (Some s)); [|done].
    by rewrite chain_at_new. }
  exists t. split_and!; [done|done|by apply GetItem_null|].
  intros it. rewrite (GetItem_stored _ it Hwf). split.
  - intros Hget.
    destruct (GetID it) as [s|] eqn:Hid;
      [|by rewrite GetItem_null in Hget].
    exists s. split; [done|]. rewrite Hm in Hget. congruence.
  - intros (s & Hid & Hs). by rewrite Hid, Hm, Hs.
Qed.
